(** * deckle: html-normalize-headings.py

    A shallow embedding of the heading normaliser of deckle
    (src/html-normalize-headings.py) and the proofs of its specified
    properties.

    A Python [str] is a sequence of Unicode code points; it is modelled as a
    list of [N].  The program works by regular expressions only; the part of
    Python's [re] it uses (literals, character classes, [?], greedy [*] and
    [+], lazy [*?], all on single characters) is modelled by a small
    backtracking matcher, and every pattern of the source is written as a
    value of that matcher's pattern type.

    The loops of scripts/fetch_pages.py that choose URLs, retry a request
    and save pages are modelled too, with what they read from the network
    and the file system handed to them as arguments. *)

From Stdlib Require Import Ascii String.
From Stdlib Require Import List NArith ZArith Bool Lia Arith.
Import ListNotations.

Local Open Scope N_scope.

(** ** Characters and strings *)

Abbreviation char := N (only parsing).
Abbreviation str := (list N) (only parsing).

Definition ch (a : ascii) : char := N_of_ascii a.

(** An ASCII literal of the source as a [str]. *)
Definition lit (s : string) : str := map ch (list_ascii_of_string s).

Definition str_eqb (a b : str) : bool :=
  if list_eq_dec N.eq_dec a b then true else false.

(** Truthiness of a Python string: the empty string is falsy. *)
Definition truthy (s : str) : bool :=
  match s with [] => false | _ :: _ => true end.

(** ** Character classes *)

Definition eqc (c : char) : char -> bool := fun x => x =? c.
Definition neqc (c : char) : char -> bool := fun x => negb (x =? c).
Definition any : char -> bool := fun _ => true.
Definition range (lo hi : char) : char -> bool :=
  fun x => (lo <=? x) && (x <=? hi).

(** A literal of the pattern under [re.IGNORECASE], for a pattern character
    [c] that is a lower-case ASCII letter or has no case.  The character [x]
    matches when its lower case is [c]; the only characters outside ASCII
    whose lower case is an ASCII letter are U+0130 (to i) and U+212A (to k),
    and [re] adds U+0131 to i and U+017F to s. *)
Definition ci (c : char) : char -> bool := fun x =>
  (x =? c)
  || (range 97 122 c && (x =? c - 32))
  || ((c =? 105) && ((x =? 304) || (x =? 305)))
  || ((c =? 115) && (x =? 383))
  || ((c =? 107) && (x =? 8490)).

(** [str.isspace] on one character, which is also the class [\s] of a
    Unicode pattern and the set [str.strip] removes. *)
Definition isspace (x : char) : bool :=
  range 9 13 x || range 28 32 x || (x =? 133) || (x =? 160)
  || (x =? 5760) || range 8192 8202 x || (x =? 8232) || (x =? 8233)
  || (x =? 8239) || (x =? 8287) || (x =? 12288).

(** ** [str.strip] *)

Fixpoint lstrip (s : str) : str :=
  match s with
  | c :: s' => if isspace c then lstrip s' else s
  | [] => []
  end.

Definition rstrip (s : str) : str := rev (lstrip (rev s)).

Definition strip (s : str) : str := rstrip (lstrip s).

(** ** The fragment of [re] the program uses *)

Inductive item :=
| One (p : char -> bool)        (* a literal or a class *)
| Opt (p : char -> bool)        (* x?   greedy *)
| Star (p : char -> bool)       (* x*   greedy *)
| Plus (p : char -> bool)       (* x+   greedy *)
| LazyStar (p : char -> bool).  (* x*?  lazy *)

Definition regex := list item.

(** The literal [s], matched exactly, and matched under [re.IGNORECASE]. *)
Definition lits (s : string) : regex := map (fun c => One (eqc c)) (lit s).
Definition lits_ci (s : string) : regex := map (fun c => One (ci c)) (lit s).

Section Backtracking.
Context {A : Type}.
Variable p : char -> bool.
Variable k : str -> option A.

(** Greedy repetition: as many characters of class [p] as possible, then
    the rest of the pattern [k]; one character is given back each time
    the rest fails. *)
Fixpoint greedy (s : str) : option (str * A) :=
  match s with
  | c :: s' =>
      if p c then
        match greedy s' with
        | Some (m, a) => Some (c :: m, a)
        | None => option_map (pair []) (k s)
        end
      else option_map (pair []) (k s)
  | [] => option_map (pair []) (k [])
  end.

(** Lazy repetition: the rest of the pattern is tried first, one more
    character of class [p] is taken each time it fails. *)
Fixpoint lazy (s : str) : option (str * A) :=
  match k s with
  | Some a => Some ([], a)
  | None =>
      match s with
      | c :: s' =>
          if p c then
            match lazy s' with
            | Some (m, a) => Some (c :: m, a)
            | None => None
            end
          else None
      | [] => None
      end
  end.
End Backtracking.

Definition push (m : str) (r : option (list str * str)) :
  option (list str * str) :=
  match r with
  | Some (caps, rest) => Some (m :: caps, rest)
  | None => None
  end.

Definition push2 (r : option (str * (list str * str))) :
  option (list str * str) :=
  match r with
  | Some (m, (caps, rest)) => Some (m :: caps, rest)
  | None => None
  end.

(** [match_here re s] is [re.match]: the pattern anchored at the start of
    [s].  The result holds the text each item of the pattern matched, in
    order, and the text after the match. *)
Fixpoint match_here (re : regex) (s : str) {struct re} :
  option (list str * str) :=
  match re with
  | [] => Some ([], s)
  | One p :: re' =>
      match s with
      | c :: s' => if p c then push [c] (match_here re' s') else None
      | [] => None
      end
  | Opt p :: re' =>
      match s with
      | c :: s' =>
          if p c then
            match match_here re' s' with
            | Some (caps, rest) => Some ([c] :: caps, rest)
            | None => push [] (match_here re' s)
            end
          else push [] (match_here re' s)
      | [] => push [] (match_here re' s)
      end
  | Star p :: re' => push2 (greedy p (match_here re') s)
  | Plus p :: re' =>
      match s with
      | c :: s' =>
          if p c then
            match greedy p (match_here re') s' with
            | Some (m, (caps, rest)) => Some ((c :: m) :: caps, rest)
            | None => None
            end
          else None
      | [] => None
      end
  | LazyStar p :: re' => push2 (lazy p (match_here re') s)
  end.

(** [search re s] is [re.search]: the match at the leftmost position that
    has one, with the text before it. *)
Fixpoint search (re : regex) (s : str) : option (str * list str * str) :=
  match match_here re s with
  | Some (caps, rest) => Some ([], caps, rest)
  | None =>
      match s with
      | c :: s' =>
          match search re s' with
          | Some (pre, caps, rest) => Some (c :: pre, caps, rest)
          | None => None
          end
      | [] => None
      end
  end.

(** The text of a match and of one of its groups (an item of the pattern,
    counted from 0). *)
Definition matched (caps : list str) : str := concat caps.
Definition group (i : nat) (caps : list str) : str := nth i caps [].

(** The non-overlapping matches of [re] in [s], left to right, with the text
    between them: what [re.sub] and [re.finditer] walk through.  Every
    pattern of this program matches at least one character, so the text
    after a match is shorter than the text searched, and [length s] rounds
    are enough for [s]. *)
Inductive seg :=
| Gap (t : str)
| Hit (caps : list str).

Fixpoint finditer_fuel (n : nat) (re : regex) (s : str) : list seg :=
  match n with
  | O => [Gap s]
  | S n' =>
      match search re s with
      | None => [Gap s]
      | Some (pre, caps, rest) =>
          Gap pre :: Hit caps :: finditer_fuel n' re rest
      end
  end.

Definition finditer (re : regex) (s : str) : list seg :=
  finditer_fuel (length s) re s.

Definition seg_src (g : seg) : str :=
  match g with Gap t => t | Hit caps => matched caps end.

Definition seg_sub (repl : list str -> str) (g : seg) : str :=
  match g with Gap t => t | Hit caps => repl caps end.

(** [re.sub(re, repl, s)] with a function [repl] of the match. *)
Definition re_sub (re : regex) (repl : list str -> str) (s : str) : str :=
  concat (map (seg_sub repl) (finditer re s)).

(** [re.split(re, s)[0]]: the text before the first match, all of [s] when
    there is none. *)
Definition split_head (re : regex) (s : str) : str :=
  match search re s with
  | Some (pre, _, _) => pre
  | None => s
  end.

(** ** The program *)

(** [html.escape(s)], with its default [quote=True]. *)
Fixpoint html_escape (s : str) : str :=
  match s with
  | [] => []
  | c :: s' =>
      (if c =? 38 then lit "&amp;"
       else if c =? 60 then lit "&lt;"
       else if c =? 62 then lit "&gt;"
       else if c =? 34 then lit "&quot;"
       else if c =? 39 then lit "&#x27;"
       else [c]) ++ html_escape s'
  end.

Definition Untitled : str := lit "Untitled".

(** The class of the four separators of [clean_title]: "-", "|", the en
    dash U+2013 and the em dash U+2014. *)
Definition sep_char (x : char) : bool :=
  (x =? 45) || (x =? 124) || (x =? 8211) || (x =? 8212).

(** The pattern of [clean_title]: "\s*", one separator, "\s+". *)
Definition sep_re : regex := [Star isspace; One sep_char; Plus isspace].

(** The pattern "<title>([^<]+)</title>" with re.IGNORECASE; its group 1 is
    item 7. *)
Definition title_re : regex :=
  lits_ci "<title>" ++ [Plus (neqc 60)] ++ lits_ci "</title>".

(** The pattern "<h1[^>]*>(.*?)</h1>" with re.DOTALL and re.IGNORECASE; its
    group 1 is item 5. *)
Definition h1_re : regex :=
  lits_ci "<h1" ++ [Star (neqc 62); One (eqc 62); LazyStar any]
  ++ lits_ci "</h1>".

(** The pattern "<[^>]+>". *)
Definition tag_re : regex := [One (eqc 60); Plus (neqc 62); One (eqc 62)].

(** The pattern of [shift_headings], with re.IGNORECASE: "<", then "/?"
    (group 1), "h", "[1-6]" (group 2), "[^>]*" (group 3) and ">".  The
    groups are items 1, 3 and 4. *)
Definition heading_re : regex :=
  [One (eqc 60); Opt (eqc 47); One (ci 104); One (range 49 54);
   Star (neqc 62); One (eqc 62)].

(** The pattern "(<body[^>]*>)" with re.IGNORECASE. *)
Definition body_re : regex :=
  lits_ci "<body" ++ [Star (neqc 62); One (eqc 62)].

Definition clean_title (title : str) : str :=
  let title := strip (split_head sep_re title) in
  if truthy title then title else Untitled.

(** [int] of the one digit group 2 holds, and the one digit an f-string
    writes for a level from 0 to 9. *)
Definition int_of_digit (d : str) : N :=
  match d with
  | c :: _ => c - 48
  | [] => 0
  end.

Definition str_of_level (n : N) : str := [48 + n].

(** The lambda [shift_headings] hands to [re.sub].  (The function
    [replace_heading] defined inside [shift_headings] is never called.) *)
Definition shift_repl (caps : list str) : str :=
  lit "<" ++ group 1 caps ++ lit "h"
  ++ str_of_level (N.min (int_of_digit (group 3 caps) + 1) 6)
  ++ (if negb (truthy (group 1 caps)) then group 4 caps else [])
  ++ lit ">".

Definition shift_headings (text : str) : str :=
  re_sub heading_re shift_repl text.

Definition title_html (title : str) : str :=
  lit "<h1>" ++ html_escape title ++ lit "</h1>" ++ [10].

(** The last step of [normalize]: the title heading goes right after the
    first body tag of the shifted text, behind a newline, or in front of the
    text when there is no body tag. *)
Definition insert_title (text title : str) : str :=
  match search body_re text with
  | Some (pre, caps, rest) =>
      (pre ++ matched caps) ++ [10] ++ title_html title ++ rest
  | None => title_html title ++ text
  end.

Section Normalize.
(** [html.unescape] of the Python library: the program only hands the
    title text through it, and nothing proved here depends on what it
    does. *)
Variable unescape : str -> str.

(** The second half of [extract_title]: the first h1 element with its tags
    removed, trimmed; "Untitled" when there is none. *)
Definition h1_fallback (text : str) : str :=
  match search h1_re text with
  | Some (_, caps, _) => strip (re_sub tag_re (fun _ => []) (group 5 caps))
  | None => Untitled
  end.

Definition extract_title (text : str) : str :=
  match search title_re text with
  | Some (_, caps, _) =>
      let title := clean_title (strip (unescape (group 7 caps))) in
      if truthy title && negb (str_eqb title Untitled) then title
      else h1_fallback text
  | None => h1_fallback text
  end.

(** The first line of [normalize]: [title_override] is [None] or a
    string, and is used when it is truthy. *)
Definition resolve_title (text : str) (title_override : option str) : str :=
  match title_override with
  | Some o => if truthy o then clean_title o else extract_title text
  | None => extract_title text
  end.

Definition normalize (text : str) (title_override : option str) : str :=
  let title := resolve_title text title_override in
  let text := shift_headings text in
  insert_title text title.
End Normalize.

(** ** What the spec calls a heading tag *)

Record HeadingTag := mkTag { closing : bool; level : N; attrs : str }.

Definition tag_of (caps : list str) : HeadingTag :=
  mkTag (truthy (group 1 caps)) (int_of_digit (group 3 caps)) (group 4 caps).

(** The matches among the segments of a text. *)
Definition hits (l : list seg) : list (list str) :=
  flat_map (fun g => match g with Hit caps => [caps] | Gap _ => [] end) l.

(** The heading tags of a document: the matches of the pattern of
    [shift_headings], left to right. *)
Definition heading_tags (s : str) : list HeadingTag :=
  map tag_of (hits (finditer heading_re s)).

(** What [shift_headings] does to one tag. *)
Definition demote (t : HeadingTag) : HeadingTag :=
  mkTag (closing t) (N.min (level t + 1) 6)
        (if closing t then [] else attrs t).

(** ** Definitions used in the statements and proofs *)

(** The text [m] is one an item of a pattern can match. *)
Definition item_ok (it : item) (m : str) : Prop :=
  match it with
  | One p => exists c, m = [c] /\ p c = true
  | Opt p => m = [] \/ exists c, m = [c] /\ p c = true
  | Star p => forallb p m = true
  | Plus p => m <> [] /\ forallb p m = true
  | LazyStar p => forallb p m = true
  end.

(** A pattern with an item that takes at least one character. *)
Definition consumes (re : regex) : bool :=
  existsb (fun it => match it with One _ | Plus _ => true | _ => false end) re.

(** The longest start of [s] in the class [p], and the rest of [s]. *)
Fixpoint span (p : char -> bool) (s : str) : str * str :=
  match s with
  | c :: s' =>
      if p c then let '(m, r) := span p s' in (c :: m, r) else ([], s)
  | [] => ([], [])
  end.

(** A pattern of the shape of a tag: a head, then "[^>]*" and ">". *)
Definition tagged (head : regex) : regex :=
  head ++ [Star (neqc 62); One (eqc 62)].

(** Every item of the head is one (possibly optional) character, which is
    none of the characters [xs]. *)
Definition rejects (xs : list char) (head : regex) : Prop :=
  Forall (fun it => match it with
                    | One p | Opt p => forall x, In x xs -> p x = false
                    | _ => False
                    end) head.

(** [s] holds no ">". *)
Definition no_gt (s : str) : Prop := forallb (neqc 62) s = true.

(** The heading pattern between its "<" and its "[^>]*". *)
Definition heading_tail : regex :=
  [Opt (eqc 47); One (ci 104); One (range 49 54)].

(** The tag [shift_repl] writes for a match, item by item, and what
    [shift_headings] makes of a segment. *)
Definition shift_caps (caps : list str) : list str :=
  [[60]; group 1 caps; [104];
   str_of_level (N.min (int_of_digit (group 3 caps) + 1) 6);
   if negb (truthy (group 1 caps)) then group 4 caps else []; [62]].

Definition shift_seg (g : seg) : seg :=
  match g with Gap t => Gap t | Hit caps => Hit (shift_caps caps) end.

(** Every non-empty end of [a] holds a ">": [a] is empty or ends with
    ">". *)
Definition gt_closed (a : str) : Prop :=
  forall p1 p2, a = p1 ++ p2 -> p2 <> [] -> In 62 p2.

(** The two tags of the inserted title, as matches and as heading tags. *)
Definition h1_open_caps : list str := [[60]; []; [104]; [49]; []; [62]].

Definition h1_close_caps : list str := [[60]; [47]; [104]; [49]; []; [62]].

Definition h1_open : HeadingTag := mkTag false 1 [].

Definition h1_close : HeadingTag := mkTag true 1 [].

Definition is_h1_open (t : HeadingTag) : bool :=
  negb (closing t) && (level t =? 1).

Definition is_h1_close (t : HeadingTag) : bool :=
  closing t && (level t =? 1).

(** What [shift_headings] does, character by character: a character at
    which no heading tag starts is copied, a heading tag is replaced by the
    tag written for it, and the walk goes on behind it. *)
Inductive shifted : str -> str -> Prop :=
| shifted_nil : shifted [] []
| shifted_char c s s' :
    match_here heading_re (c :: s) = None ->
    shifted s s' -> shifted (c :: s) (c :: s')
| shifted_tag s caps rest rest' :
    match_here heading_re s = Some (caps, rest) ->
    shifted rest rest' -> shifted s (shift_repl caps ++ rest').

(** The separator of [clean_title] occurs in [s]: one of its four
    characters with a whitespace character behind it (the whitespace in
    front of it is optional). *)
Fixpoint sep_occurs (s : str) : bool :=
  match s with
  | c :: s' =>
      (sep_char c && match s' with w :: _ => isspace w | [] => false end)
      || sep_occurs s'
  | [] => false
  end.

(** [s] neither begins nor ends with whitespace. *)
Definition trimmed (s : str) : bool :=
  match s with
  | [] => true
  | c :: _ => negb (isspace c) && negb (isspace (last s 0))
  end.

(** [o] is the literal [pat], case apart. *)
Fixpoint ci_eqb (pat o : str) : bool :=
  match pat, o with
  | [], [] => true
  | c :: pat', x :: o' => ci c x && ci_eqb pat' o'
  | _, _ => false
  end.

(** [s] starts with the literal [pat], case apart. *)
Fixpoint starts_ci (pat s : str) : bool :=
  match pat, s with
  | [], _ => true
  | c :: pat', x :: s' => ci c x && starts_ci pat' s'
  | _ :: _, [] => false
  end.

(** The pattern of a literal under re.IGNORECASE. *)
Definition ones_ci (pat : str) : regex := map (fun c => One (ci c)) pat.

(** Somewhere in [s] there is "<title>", case apart, with a character other
    than "<" behind it. *)
Fixpoint title_open_with_text (s : str) : bool :=
  match s with
  | [] => false
  | _ :: s' =>
      (starts_ci (lit "<title>") s
       && match skipn 7 s with x :: _ => neqc 60 x | [] => false end)
      || title_open_with_text s'
  end.

(** The three sources of a title, each with the title it gives when it gives
    one, and the first of them that gives one. *)
Definition override_strategy (title_override : option str) : option str :=
  match title_override with
  | Some o => if truthy o then Some (clean_title o) else None
  | None => None
  end.

Definition title_strategy (unescape : str -> str) (text : str) : option str :=
  match search title_re text with
  | Some (_, caps, _) =>
      let title := clean_title (strip (unescape (group 7 caps))) in
      if truthy title && negb (str_eqb title Untitled) then Some title
      else None
  | None => None
  end.

Definition h1_strategy (text : str) : option str :=
  match search h1_re text with
  | Some (_, caps, _) =>
      Some (strip (re_sub tag_re (fun _ => []) (group 5 caps)))
  | None => None
  end.

Fixpoint first_of (l : list (option str)) (default : str) : str :=
  match l with
  | Some t :: _ => t
  | None :: l' => first_of l' default
  | [] => default
  end.

(** The literal [pat] occurs in [s], case apart. *)
Fixpoint occurs_ci (pat s : str) : bool :=
  match s with
  | [] => starts_ci pat []
  | _ :: s' => starts_ci pat s || occurs_ci pat s'
  end.

(** [s] holds a body tag: "<body", case apart, with a ">" somewhere behind
    it. *)
Fixpoint has_body_tag (s : str) : bool :=
  match s with
  | [] => false
  | _ :: s' =>
      (starts_ci (lit "<body") s && existsb (eqc 62) s) || has_body_tag s'
  end.

(** The number of characters of [l] that are not whitespace. *)
Definition nonws (l : str) : nat :=
  length (filter (fun x => negb (isspace x)) l).

(** What [n] runs of [shift_headings] do to one tag, for [n] above 0. *)
Definition demote_by (n : nat) (t : HeadingTag) : HeadingTag :=
  mkTag (closing t) (N.min (level t + N.of_nat n) 6)
        (if closing t then [] else attrs t).

(** A title element the code can use starts [s]: "<title>" itself (case
    apart, no attributes), content that is not empty and runs up to the
    next "<", and "</title>" (case apart) right there.  The result is the
    content. *)
Definition title_element_at (s : str) : option str :=
  if starts_ci (lit "<title>") s then
    let '(content, r) := span (neqc 60) (skipn 7 s) in
    if truthy content && starts_ci (lit "</title>") r then Some content
    else None
  else None.

(** The content of the first such title element of a document. *)
Fixpoint first_title_content (s : str) : option str :=
  match title_element_at s with
  | Some content => Some content
  | None =>
      match s with
      | [] => None
      | _ :: s' => first_title_content s'
      end
  end.









(** The characters [shift_headings] drops from a text: the attribute text
    of its closing heading tags. *)
Definition dropped_attrs (text : str) : nat :=
  list_sum (map (fun t => if closing t then length (attrs t) else 0%nat)
                (heading_tags text)).

(** The name of a tag ends in front of [c]: whitespace, "/" or ">". *)
Definition name_end (c : char) : bool :=
  isspace c || (c =? 47) || (c =? 62).

(** A tag named h1 to h6 starts [s]: "<", "/" or not, "h" or "H", a digit
    from 1 to 6, and the end of the name. *)
Definition heading_name_at (s : str) : bool :=
  match s with
  | lt :: r =>
      (lt =? 60)
      && (let r' := match r with
                    | sl :: r1 => if sl =? 47 then r1 else r
                    | [] => r
                    end in
          match r' with
          | h :: d :: e :: _ =>
              ((h =? 104) || (h =? 72)) && range 49 54 d && name_end e
          | _ => false
          end)
  | [] => false
  end.

(** A tag named h1 to h6 starts somewhere in [s]. *)
Fixpoint has_heading_name (s : str) : bool :=
  match s with
  | [] => false
  | _ :: s' => heading_name_at s || has_heading_name s'
  end.

(** ** scripts/fetch_pages.py *)

(** [s.startswith(prefix)]. *)
Fixpoint startswith (s prefix : str) : bool :=
  match prefix, s with
  | [], _ => true
  | p :: prefix', c :: s' => (c =? p) && startswith s' prefix'
  | _ :: _, [] => false
  end.

(** The test of [fetch_file_urls] on a stripped line. *)
Definition is_http (url : str) : bool :=
  truthy url && startswith url (lit "http").

(** The loop of [fetch_file_urls] over the lines of the file, with the
    URLs collected so far. *)
Fixpoint file_loop (limit : Z) (lines : list str) (urls : list str) :
  list str :=
  match lines with
  | [] => urls
  | line :: lines' =>
      let url := strip line in
      if is_http url then
        let urls := urls ++ [url] in
        if (limit <=? Z.of_nat (length urls))%Z then urls
        else file_loop limit lines' urls
      else file_loop limit lines' urls
  end.

(** [fetch_file_urls(input_path, limit)]: the file is [None] when the path
    does not exist, and the lines its iteration yields otherwise; what is
    printed is left out. *)
Definition fetch_file_urls (file : option (list str)) (limit : Z) : list str :=
  match file with
  | None => []
  | Some lines => file_loop limit lines []
  end.

(** The loop of [fetch_url] over the attempts that are left.  [outcome k] is
    what the request of attempt [k] gives: the decoded body, or [None] when
    it raises.  The result comes with the seconds slept, in order. *)
Fixpoint fetch_attempts (outcome : nat -> option str) (retries : Z)
    (attempts : list nat) : option str * list Z :=
  match attempts with
  | [] => (None, [])
  | attempt :: attempts' =>
      match outcome attempt with
      | Some body => (Some body, [])
      | None =>
          if (Z.of_nat attempt <? retries)%Z then
            let '(r, slept) := fetch_attempts outcome retries attempts' in
            (r, (1 * (Z.of_nat attempt + 1))%Z :: slept)
          else (None, [])
      end
  end.

(** [fetch_url(url, timeout, retries)]: the attempts are
    [range(retries + 1)]. *)
Definition fetch_url (outcome : nat -> option str) (retries : Z) :
  option str * list Z :=
  fetch_attempts outcome retries (seq 0 (Z.to_nat (retries + 1))).

(** [sub in s] for strings. *)
Fixpoint contains (sub s : str) : bool :=
  startswith s sub
  || match s with
     | [] => false
     | _ :: s' => contains sub s'
     end.

(** [x in seen] for a set of strings, kept as a list. *)
Definition mem (x : str) (seen : list str) : bool := existsb (str_eqb x) seen.

(** The URLs [fetch_techmeme_urls] passes over. *)
Definition skip_list : list str :=
  map lit ["twitter.com"; "x.com"; "facebook.com"; "linkedin.com";
           "youtube.com"; "reddit.com"; ".js"; ".css"; ".png"; ".jpg";
           "accounts.google"; "play.google"; "apps.apple"]%string.

Definition skipped (url : str) : bool :=
  existsb (fun skip => contains skip url) skip_list.

(** The pattern of [fetch_techmeme_urls] in front of its lookahead: "href=",
    a double quote, "https?://"; group 1 starts at item 6. *)
Definition href_re : regex :=
  lits "href=" ++ [One (eqc 34)] ++ lits "http" ++ [Opt (eqc 115)]
  ++ lits "://".

(** The pattern behind the lookahead: the rest of the URL, which is one or
    more characters other than a double quote, and the double quote. *)
Definition href_tail_re : regex := [Plus (neqc 34); One (eqc 34)].

(** A match of the whole pattern at the start of [s]: group 1 and the text
    behind the match.  The negative lookahead is tested between the two
    parts; when it fails there is no other way to match the first part, as
    the only choice in it is the "s" in front of ":". *)
Definition href_match (s : str) : option (str * str) :=
  match match_here href_re s with
  | Some (caps1, r1) =>
      if startswith r1 (lit "techmeme.com") then None
      else
        match match_here href_tail_re r1 with
        | Some (caps2, r2) =>
            Some (matched (skipn 6 caps1) ++ group 0 caps2, r2)
        | None => None
        end
  | None => None
  end.

(** Group 1 of the matches [re.finditer] yields, left to right; [length s]
    rounds are enough for [s]. *)
Fixpoint href_scan (fuel : nat) (s : str) : list str :=
  match fuel with
  | O => []
  | S fuel' =>
      match s with
      | [] => []
      | _ :: s' =>
          match href_match s with
          | Some (url, rest) => url :: href_scan fuel' rest
          | None => href_scan fuel' s'
          end
      end
  end.

(** The loop of [fetch_techmeme_urls] over the URLs found, with the URLs
    collected and the set of the URLs seen. *)
Fixpoint techmeme_loop (limit : Z) (found : list str) (urls seen : list str) :
  list str :=
  match found with
  | [] => urls
  | url :: found' =>
      if skipped url then techmeme_loop limit found' urls seen
      else if negb (mem url seen) then
        let seen := url :: seen in
        let urls := urls ++ [url] in
        if (limit <=? Z.of_nat (length urls))%Z then urls
        else techmeme_loop limit found' urls seen
      else techmeme_loop limit found' urls seen
  end.

(** [fetch_techmeme_urls(limit)], with the body [fetch_url] gave for the
    front page; what is printed is left out. *)
Definition fetch_techmeme_urls (body : option str) (limit : Z) : list str :=
  match body with
  | None => []
  | Some b =>
      if truthy b then techmeme_loop limit (href_scan (length b) b) [] []
      else []
  end.

(** The first occurrences in [l] of the strings that are not in [seen]. *)
Fixpoint dedup (seen : list str) (l : list str) : list str :=
  match l with
  | [] => []
  | x :: l' =>
      if mem x seen then dedup seen l' else x :: dedup (x :: seen) l'
  end.

(** A URL the pattern of [fetch_techmeme_urls] can give: "http://" or
    "https://", then text that is not empty, does not start with
    "techmeme.com" and holds no double quote. *)
Definition external_url (u : str) : Prop :=
  exists scheme r,
    (scheme = lit "http://" \/ scheme = lit "https://")
    /\ u = scheme ++ r /\ r <> []
    /\ startswith r (lit "techmeme.com") = false
    /\ ~ In 34 u.

(** The files of [download_pages]: a path has no file ([None]) or a file
    with the text it holds.  A file has a size above 0 when its text is not
    empty. *)
Definition exists_nonempty (fs : str -> option str) (path : str) : bool :=
  match fs path with
  | Some content => truthy content
  | None => false
  end.

Definition write_file (fs : str -> option str) (path body : str) :
  str -> option str :=
  fun q => if str_eqb q path then Some body else fs q.

Section Download.
(** [hashlib.md5(url.encode()).hexdigest()] and [os.path.join] of the
    Python library, and what the call of [fetch_url] for the URL number
    [i] gives. *)
Variable md5_hex : str -> str.
Variable path_join : str -> str -> str.
Variable fetch : nat -> str -> option str.
Variable pages_dir : str.

Definition page_filename (url : str) : str := md5_hex url ++ lit ".html".

(** The loop of [download_pages], with the files and the names saved so
    far; what is printed and slept is left out. *)
Fixpoint download_loop (i : nat) (urls : list str) (fs : str -> option str)
    (saved : list str) : list str * (str -> option str) :=
  match urls with
  | [] => (saved, fs)
  | url :: urls' =>
      let filename := page_filename url in
      let filepath := path_join pages_dir filename in
      if exists_nonempty fs filepath then
        download_loop (S i) urls' fs (saved ++ [filename])
      else
        match fetch i url with
        | Some body =>
            if truthy body && (100 <? length body)%nat then
              download_loop (S i) urls' (write_file fs filepath body)
                            (saved ++ [filename])
            else download_loop (S i) urls' fs saved
        | None => download_loop (S i) urls' fs saved
        end
  end.

Definition download_pages (urls : list str) (fs : str -> option str) :
  list str * (str -> option str) :=
  download_loop 0 urls fs [].

(** Every name saved is the name of a file in the pages directory that is
    not empty. *)
Definition saved_ok (fs : str -> option str) (saved : list str) : Prop :=
  Forall (fun f => exists_nonempty fs (path_join pages_dir f) = true) saved.
End Download.

(** ** The matcher: what a match consists of *)

Lemma greedy_sound {A} p (k : str -> option A) s m a :
  greedy p k s = Some (m, a) ->
  exists r, s = m ++ r /\ forallb p m = true /\ k r = Some a.
Proof.
  revert m a; induction s as [|c s IH]; intros m a; simpl.
  - destruct (k []) eqn:E; simpl; intros H; inversion H; subst.
    exists []; auto.
  - destruct (p c) eqn:Pc.
    + destruct (greedy p k s) as [[m' a']|] eqn:G.
      * intros H; inversion H; subst.
        destruct (IH _ _ eq_refl) as (r & -> & Hm & Hk).
        exists r; simpl; rewrite Pc; auto.
      * destruct (k (c :: s)) eqn:E; simpl; intros H; inversion H; subst.
        exists (c :: s); auto.
    + destruct (k (c :: s)) eqn:E; simpl; intros H; inversion H; subst.
      exists (c :: s); auto.
Qed.

Lemma lazy_sound {A} p (k : str -> option A) s m a :
  lazy p k s = Some (m, a) ->
  exists r, s = m ++ r /\ forallb p m = true /\ k r = Some a.
Proof.
  revert m a; induction s as [|c s IH]; intros m a; simpl.
  - destruct (k []) eqn:E; intros H; inversion H; subst. exists []; auto.
  - destruct (k (c :: s)) eqn:E.
    + intros H; inversion H; subst. exists (c :: s); auto.
    + destruct (p c) eqn:Pc; [|discriminate].
      destruct (lazy p k s) as [[m' a']|] eqn:G; [|discriminate].
      intros H; inversion H; subst.
      destruct (IH _ _ eq_refl) as (r & -> & Hm & Hk).
      exists r; simpl; rewrite Pc; auto.
Qed.

Lemma match_here_sound re : forall s caps rest,
  match_here re s = Some (caps, rest) ->
  s = matched caps ++ rest /\ Forall2 item_ok re caps.
Proof.
  unfold matched.
  induction re as [|it re IH]; intros s caps rest; simpl.
  - intros H; inversion H; subst; auto.
  - destruct it as [p|p|p|p|p].
    + destruct s as [|c s]; [discriminate|].
      destruct (p c) eqn:Pc; [|discriminate].
      destruct (match_here re s) as [[caps' rest']|] eqn:M; simpl;
        [|discriminate].
      intros H; inversion H; subst.
      destruct (IH _ _ _ M) as [-> HF]. split; [reflexivity|].
      constructor; [exists c; auto|assumption].
    + assert (Skip : push [] (match_here re s) = Some (caps, rest) ->
                     s = concat caps ++ rest /\ Forall2 item_ok (Opt p :: re) caps).
      { destruct (match_here re s) as [[caps' rest']|] eqn:M; simpl;
          [|discriminate].
        intros H; inversion H; subst.
        destruct (IH _ _ _ M) as [-> HF]. split; [reflexivity|].
        constructor; [left; reflexivity|assumption]. }
      destruct s as [|c s]; [exact Skip|].
      destruct (p c) eqn:Pc; [|exact Skip].
      destruct (match_here re s) as [[caps' rest']|] eqn:M; [|exact Skip].
      intros H; inversion H; subst.
      destruct (IH _ _ _ M) as [-> HF]. split; [reflexivity|].
      constructor; [right; exists c; auto|assumption].
    + destruct (greedy p (match_here re) s) as [[m [caps' rest']]|] eqn:G;
        simpl; [|discriminate].
      intros H; inversion H; subst.
      destruct (greedy_sound _ _ _ _ _ G) as (r & -> & Hm & Hk).
      destruct (IH _ _ _ Hk) as [-> HF].
      split; [simpl; now rewrite app_assoc|].
      constructor; assumption.
    + destruct s as [|c s]; [discriminate|].
      destruct (p c) eqn:Pc; [|discriminate].
      destruct (greedy p (match_here re) s) as [[m [caps' rest']]|] eqn:G;
        [|discriminate].
      intros H; inversion H; subst.
      destruct (greedy_sound _ _ _ _ _ G) as (r & -> & Hm & Hk).
      destruct (IH _ _ _ Hk) as [-> HF].
      split; [simpl; now rewrite app_assoc|].
      constructor; [|assumption].
      split; [discriminate|simpl; now rewrite Pc].
    + destruct (lazy p (match_here re) s) as [[m [caps' rest']]|] eqn:G;
        simpl; [|discriminate].
      intros H; inversion H; subst.
      destruct (lazy_sound _ _ _ _ _ G) as (r & -> & Hm & Hk).
      destruct (IH _ _ _ Hk) as [-> HF].
      split; [simpl; now rewrite app_assoc|].
      constructor; assumption.
Qed.

(** [search] finds the leftmost position with a match. *)
Lemma search_sound re : forall s pre caps rest,
  search re s = Some (pre, caps, rest) ->
  s = pre ++ matched caps ++ rest
  /\ match_here re (matched caps ++ rest) = Some (caps, rest)
  /\ (forall p1 p2, pre = p1 ++ p2 -> p2 <> [] ->
       match_here re (p2 ++ matched caps ++ rest) = None).
Proof.
  induction s as [|c s IH]; intros pre caps rest; simpl.
  - destruct (match_here re []) as [[caps' rest']|] eqn:M; [|discriminate].
    intros H; inversion H; subst.
    destruct (match_here_sound _ _ _ _ M) as [E _].
    simpl. rewrite <- E. repeat split; auto.
    intros p1 p2 Hp; symmetry in Hp; apply app_eq_nil in Hp.
    destruct Hp; congruence.
  - destruct (match_here re (c :: s)) as [[caps' rest']|] eqn:M.
    + intros H; inversion H; subst.
      destruct (match_here_sound _ _ _ _ M) as [E _].
      simpl. rewrite <- E. repeat split; auto.
      intros p1 p2 Hp; symmetry in Hp; apply app_eq_nil in Hp.
      destruct Hp; congruence.
    + destruct (search re s) as [[[pre' caps'] rest']|] eqn:S; [|discriminate].
      intros H; inversion H; subst.
      destruct (IH _ _ _ eq_refl) as (E & Hm & Hfirst).
      split; [simpl; now rewrite <- E|]. split; [assumption|].
      intros p1 p2 Hp Hne. destruct p1 as [|c1 p1]; simpl in Hp.
      * subst p2. simpl. rewrite <- E. exact M.
      * inversion Hp; subst. eapply Hfirst; eauto.
Qed.

Lemma search_complete re : forall pre s caps rest,
  match_here re s = Some (caps, rest) ->
  (forall p1 p2, pre = p1 ++ p2 -> p2 <> [] -> match_here re (p2 ++ s) = None) ->
  search re (pre ++ s) = Some (pre, caps, rest).
Proof.
  induction pre as [|c pre IH]; intros s caps rest M Hfirst.
  - simpl. destruct s; simpl; now rewrite M.
  - assert (H0 := Hfirst [] (c :: pre) eq_refl ltac:(discriminate)).
    simpl in *. rewrite H0.
    rewrite (IH s caps rest M); [reflexivity|].
    intros p1 p2 -> Hne. apply (Hfirst (c :: p1) p2); auto.
Qed.

Lemma search_none re : forall s,
  (forall p1 p2, s = p1 ++ p2 -> match_here re p2 = None) ->
  search re s = None.
Proof.
  induction s as [|c s IH]; intros H; simpl.
  - now rewrite (H [] [] eq_refl).
  - rewrite (H [] (c :: s) eq_refl). rewrite IH; [reflexivity|].
    intros p1 p2 ->. apply (H (c :: p1) p2). reflexivity.
Qed.

Lemma search_none_inv re : forall s p1 p2,
  search re s = None -> s = p1 ++ p2 -> match_here re p2 = None.
Proof.
  induction s as [|c s IH]; intros p1 p2; simpl.
  - destruct (match_here re []) as [[? ?]|] eqn:M; [discriminate|].
    intros _ Hp; symmetry in Hp; apply app_eq_nil in Hp.
    destruct Hp; subst; assumption.
  - destruct (match_here re (c :: s)) as [[? ?]|] eqn:M; [discriminate|].
    destruct (search re s) as [[[? ?] ?]|] eqn:S; [discriminate|].
    intros _ Hp. destruct p1 as [|c1 p1]; simpl in Hp.
    + subst; assumption.
    + inversion Hp; subst. eapply IH; eauto.
Qed.

(** ** [finditer]: enough rounds *)

Lemma consumes_nonempty re caps :
  consumes re = true -> Forall2 item_ok re caps -> matched caps <> [].
Proof.
  unfold matched. intros C F; induction F as [|it m re caps Hm F IH];
    simpl in *; [discriminate|].
  intros E. apply app_eq_nil in E as [Em Ec].
  destruct it; simpl in *.
  - destruct Hm as (c & -> & _). discriminate.
  - exact (IH C Ec).
  - exact (IH C Ec).
  - destruct Hm as [Hne _]. auto.
  - exact (IH C Ec).
Qed.

Lemma search_shorter re s pre caps rest :
  consumes re = true -> search re s = Some (pre, caps, rest) ->
  (length rest < length s)%nat.
Proof.
  intros C S. destruct (search_sound _ _ _ _ _ S) as (-> & M & _).
  destruct (match_here_sound _ _ _ _ M) as [_ F].
  pose proof (consumes_nonempty _ _ C F) as Hne.
  rewrite !length_app. destruct (matched caps); [congruence|simpl; lia].
Qed.

Lemma search_nil re : consumes re = true -> search re [] = None.
Proof.
  intros C. destruct (search re []) as [[[pre caps] rest]|] eqn:S; auto.
  apply search_shorter in S; auto. simpl in S; lia.
Qed.

Lemma finditer_fuel_enough re : consumes re = true ->
  forall n m s, (length s <= n)%nat -> (length s <= m)%nat ->
  finditer_fuel n re s = finditer_fuel m re s.
Proof.
  intros C. induction n as [|n IH]; intros m s Hn Hm.
  - destruct s; [|simpl in Hn; lia].
    destruct m; cbn [finditer_fuel]; [reflexivity|]. now rewrite search_nil.
  - destruct m as [|m].
    + destruct s; [|simpl in Hm; lia]. cbn [finditer_fuel].
      now rewrite search_nil.
    + cbn [finditer_fuel].
      destruct (search re s) as [[[pre caps] rest]|] eqn:S; auto.
      pose proof (search_shorter _ _ _ _ _ C S).
      do 2 f_equal. apply IH; lia.
Qed.

(** One round of [re.sub]'s loop. *)
Lemma finditer_unfold re s : consumes re = true ->
  finditer re s =
  match search re s with
  | None => [Gap s]
  | Some (pre, caps, rest) => Gap pre :: Hit caps :: finditer re rest
  end.
Proof.
  intros C. unfold finditer. destruct s as [|c s].
  - cbn [finditer_fuel length]. now rewrite search_nil.
  - change (finditer_fuel (length (c :: s)) re (c :: s))
      with (match search re (c :: s) with
            | None => [Gap (c :: s)]
            | Some (pre, caps, rest) =>
                Gap pre :: Hit caps :: finditer_fuel (length s) re rest
            end).
    destruct (search re (c :: s)) as [[[pre caps] rest]|] eqn:S; auto.
    pose proof (search_shorter _ _ _ _ _ C S) as L. simpl in L.
    do 2 f_equal. apply finditer_fuel_enough; auto; lia.
Qed.

Lemma finditer_ind re (P : str -> list seg -> Prop) :
  consumes re = true ->
  (forall s, search re s = None -> P s [Gap s]) ->
  (forall s pre caps rest,
      search re s = Some (pre, caps, rest) ->
      P rest (finditer re rest) ->
      P s (Gap pre :: Hit caps :: finditer re rest)) ->
  forall s, P s (finditer re s).
Proof.
  intros C Hn Hs s.
  remember (length s) as n eqn:En. revert s En.
  induction n as [n IH] using lt_wf_ind. intros s ->.
  rewrite finditer_unfold by assumption.
  destruct (search re s) as [[[pre caps] rest]|] eqn:S; [|auto].
  apply Hs; [assumption|].
  apply (IH (length rest)); [|reflexivity].
  eapply search_shorter; eauto.
Qed.

(** The text is cut into its segments, nothing is lost. *)
Lemma finditer_src re s :
  consumes re = true -> concat (map seg_src (finditer re s)) = s.
Proof.
  intros C. apply (finditer_ind re (fun s l => concat (map seg_src l) = s));
    auto.
  - intros s0 _. simpl. now rewrite app_nil_r.
  - intros s0 pre caps rest S IH. simpl. rewrite IH.
    now destruct (search_sound _ _ _ _ _ S) as (-> & _).
Qed.

Lemma re_sub_unfold re repl s : consumes re = true ->
  re_sub re repl s =
  match search re s with
  | None => s
  | Some (pre, caps, rest) => pre ++ repl caps ++ re_sub re repl rest
  end.
Proof.
  intros C. unfold re_sub. rewrite finditer_unfold by assumption.
  destruct (search re s) as [[[pre caps] rest]|]; simpl;
    [reflexivity|now rewrite app_nil_r].
Qed.

(** ** Greedy repetition in front of a character it cannot take *)

Lemma span_app p m r :
  forallb p m = true -> (forall c r', r = c :: r' -> p c = false) ->
  span p (m ++ r) = (m, r).
Proof.
  intros Hm Hr. induction m as [|c m IH]; simpl in *.
  - destruct r as [|c r']; [reflexivity|].
    simpl. now rewrite (Hr c r' eq_refl).
  - apply andb_prop in Hm as [-> Hm]. now rewrite IH.
Qed.

Lemma span_spec p s :
  s = fst (span p s) ++ snd (span p s)
  /\ forallb p (fst (span p s)) = true
  /\ (forall c r', snd (span p s) = c :: r' -> p c = false).
Proof.
  induction s as [|c s IH]; simpl.
  - repeat split; auto. discriminate.
  - destruct (p c) eqn:Pc.
    + destruct (span p s) as [m r]; simpl in *.
      destruct IH as (E & Hm & Hr). rewrite Pc, Hm. repeat split; auto.
      now f_equal.
    + simpl. repeat split; auto. intros ? ? H; inversion H; subst; auto.
Qed.

Lemma greedy_excl {A} p (k : str -> option A) :
  (forall c z, p c = true -> k (c :: z) = None) ->
  forall s, greedy p k s =
            option_map (pair (fst (span p s))) (k (snd (span p s))).
Proof.
  intros Hk. induction s as [|c s IH]; simpl; [reflexivity|].
  destruct (p c) eqn:Pc; [|reflexivity].
  rewrite IH. destruct (span p s) as [m r]; simpl.
  destruct (k r); simpl; [reflexivity|].
  now rewrite (Hk c s Pc).
Qed.

Lemma greedy_total {A} p (k : str -> option A) :
  (forall z, k z <> None) ->
  forall s, greedy p k s =
            option_map (pair (fst (span p s))) (k (snd (span p s))).
Proof.
  intros Hk. induction s as [|c s IH]; simpl; [reflexivity|].
  destruct (p c) eqn:Pc; [|reflexivity].
  rewrite IH. destruct (span p s) as [m r]; simpl.
  destruct (k r) eqn:E; simpl; [reflexivity|].
  now destruct (Hk r).
Qed.

Lemma match_here_One p re c s :
  match_here (One p :: re) (c :: s) =
  if p c then push [c] (match_here re s) else None.
Proof. reflexivity. Qed.

Lemma match_here_One_nil p re : match_here (One p :: re) [] = None.
Proof. reflexivity. Qed.

Lemma match_here_Star p re s :
  match_here (Star p :: re) s = push2 (greedy p (match_here re) s).
Proof. reflexivity. Qed.

(** The end of an opening tag: everything up to the first ">". *)
Lemma match_tag_end re s :
  match_here (Star (neqc 62) :: One (eqc 62) :: re) s =
  match snd (span (neqc 62) s) with
  | c :: r =>
      match match_here re r with
      | Some (caps, rest) => Some (fst (span (neqc 62) s) :: [c] :: caps, rest)
      | None => None
      end
  | [] => None
  end.
Proof.
  rewrite match_here_Star, greedy_excl.
  - destruct (span_spec (neqc 62) s) as (_ & _ & Hr).
    destruct (span (neqc 62) s) as [m [|c r]]; simpl in *; [reflexivity|].
    specialize (Hr c r eq_refl). unfold neqc in Hr. unfold eqc.
    apply negb_false_iff in Hr. rewrite Hr.
    destruct (match_here re r) as [[caps rest]|]; reflexivity.
  - intros c z Hc. rewrite match_here_One. unfold neqc in Hc. unfold eqc.
    apply negb_true_iff in Hc. now rewrite Hc.
Qed.

Lemma match_here_Opt_nil p re :
  match_here (Opt p :: re) [] = push [] (match_here re []).
Proof. reflexivity. Qed.

Lemma match_here_Opt p re c s :
  match_here (Opt p :: re) (c :: s) =
  if p c then
    match match_here re s with
    | Some (caps, rest) => Some ([c] :: caps, rest)
    | None => push [] (match_here re (c :: s))
    end
  else push [] (match_here re (c :: s)).
Proof. reflexivity. Qed.

(** ** Patterns of the shape of a tag

    The patterns for heading tags and for the body tag are a few single
    characters, none of which can be ">", then "[^>]*" and ">".  Whether
    and how such a pattern matches is decided by the text up to the first
    ">". *)

Lemma no_gt_app a b : no_gt (a ++ b) <-> no_gt a /\ no_gt b.
Proof. unfold no_gt. rewrite forallb_app, andb_true_iff. tauto. Qed.

Lemma no_gt_cons c s : no_gt (c :: s) <-> c <> 62 /\ no_gt s.
Proof.
  unfold no_gt, neqc. simpl. rewrite andb_true_iff, negb_true_iff, N.eqb_neq.
  tauto.
Qed.

Lemma tagged_local head : rejects [62] head ->
  forall u v, no_gt u ->
  match_here (tagged head) (u ++ 62 :: v) =
  match match_here (tagged head) (u ++ [62]) with
  | Some (caps, _) => Some (caps, v)
  | None => None
  end.
Proof.
  induction 1 as [|it head Hit Hhead IH]; intros u v Hu.
  - unfold tagged; simpl app. rewrite !match_tag_end.
    rewrite !span_app; auto; try (intros c r' E; inversion E; reflexivity).
  - change (tagged (it :: head)) with (it :: tagged head).
    destruct it as [p|p| | |]; try contradiction;
      pose proof (Hit 62 (or_introl eq_refl)) as Hp.
    + destruct u as [|c u]; simpl app.
      * rewrite !match_here_One, Hp. reflexivity.
      * apply no_gt_cons in Hu as [_ Hu].
        rewrite !match_here_One. destruct (p c); [|reflexivity].
        rewrite (IH u v Hu).
        destruct (match_here (tagged head) (u ++ [62])) as [[? ?]|];
          reflexivity.
    + destruct u as [|c u]; simpl app.
      * rewrite !match_here_Opt, Hp. pose proof (IH [] v Hu) as IH0.
        simpl app in IH0. rewrite IH0.
        destruct (match_here (tagged head) [62]) as [[? ?]|]; reflexivity.
      * pose proof Hu as Hu'. apply no_gt_cons in Hu' as [_ Hu'].
        rewrite !match_here_Opt.
        assert (E : push [] (match_here (tagged head) (c :: u ++ 62 :: v)) =
                    match push [] (match_here (tagged head) (c :: u ++ [62]))
                    with Some (caps, _) => Some (caps, v) | None => None end).
        { pose proof (IH (c :: u) v Hu) as IH0. simpl app in IH0.
          rewrite IH0.
          destruct (match_here (tagged head) (c :: u ++ [62])) as [[? ?]|];
            reflexivity. }
        destruct (p c); [|exact E].
        rewrite (IH u v Hu').
        destruct (match_here (tagged head) (u ++ [62])) as [[? ?]|];
          [reflexivity|exact E].
Qed.

(** A match of a tag pattern ends with ">". *)
Lemma tagged_last head s caps rest :
  match_here (tagged head) s = Some (caps, rest) ->
  exists m, matched caps = m ++ [62].
Proof.
  intros M. destruct (match_here_sound _ _ _ _ M) as [_ F].
  unfold tagged in F. apply Forall2_app_inv_l in F.
  destruct F as (c1 & c2 & _ & F2 & ->).
  inversion F2 as [|? a ? c3 _ F3]; subst.
  inversion F3 as [|? b ? c4 Hb F4]; subst.
  inversion F4; subst. destruct Hb as (c & -> & Hc).
  unfold eqc in Hc. apply N.eqb_eq in Hc. subst c.
  exists (concat c1 ++ a). unfold matched. rewrite concat_app. simpl.
  rewrite ?app_nil_r. now rewrite app_assoc.
Qed.

Lemma first_gt s : In 62 s -> exists u v, s = u ++ 62 :: v /\ no_gt u.
Proof.
  induction s as [|c s IH]; simpl; [tauto|].
  destruct (N.eq_dec c 62) as [->|Hc].
  - intros _. exists [], s. split; reflexivity.
  - intros [E|H]; [congruence|].
    destruct (IH H) as (u & v & -> & Hu).
    exists (c :: u), v. split; [reflexivity|]. apply no_gt_cons; auto.
Qed.

Lemma no_gt_not_in s : no_gt s -> ~ In 62 s.
Proof.
  unfold no_gt. rewrite forallb_forall. intros H Hin.
  specialize (H _ Hin). discriminate.
Qed.

(** Text behind the first ">" does not change a match. *)
Lemma tagged_app head s b : rejects [62] head -> In 62 s ->
  match_here (tagged head) (s ++ b) =
  match match_here (tagged head) s with
  | Some (caps, rest) => Some (caps, rest ++ b)
  | None => None
  end.
Proof.
  intros R H. destruct (first_gt s H) as (u & v & -> & Hu).
  rewrite <- app_assoc. simpl app.
  rewrite (tagged_local head R u (v ++ b) Hu), (tagged_local head R u v Hu).
  destruct (match_here (tagged head) (u ++ [62])) as [[? ?]|]; reflexivity.
Qed.

(** Without a ">" there is no match. *)
Lemma tagged_no_gt head s : no_gt s -> match_here (tagged head) s = None.
Proof.
  intros Hs. destruct (match_here (tagged head) s) as [[caps rest]|] eqn:M;
    [|reflexivity].
  destruct (tagged_last _ _ _ _ M) as [m Hm].
  destruct (match_here_sound _ _ _ _ M) as [E _].
  exfalso. apply (no_gt_not_in s Hs). rewrite E, Hm.
  rewrite !in_app_iff. left; right; left; reflexivity.
Qed.

Lemma tag_end_some s : In 62 s -> match_here (tagged []) s <> None.
Proof.
  intros H. destruct (first_gt s H) as (u & v & -> & Hu).
  unfold tagged; simpl app. rewrite match_tag_end.
  rewrite span_app; auto; try (intros c r' E; inversion E; reflexivity).
  simpl. discriminate.
Qed.

(** When the text of a tag is changed behind its "<", a position in front
    of the tag that had no match gets none. *)
Lemma tagged_head_only head : rejects [60; 62] head ->
  forall u m r, no_gt m -> no_gt r ->
  match_here (tagged head) (u ++ 60 :: m ++ [62]) = None ->
  match_here (tagged head) (u ++ 60 :: r ++ [62]) = None.
Proof.
  induction 1 as [|it head Hit Hhead IH]; intros u m r Hm Hr.
  - intros H. exfalso. revert H. apply tag_end_some.
    rewrite in_app_iff. right. right. rewrite in_app_iff. right. left.
    reflexivity.
  - change (tagged (it :: head)) with (it :: tagged head).
    destruct it as [p|p| | |]; try contradiction;
      pose proof (Hit 60 (or_introl eq_refl)) as Hp.
    + destruct u as [|c u]; simpl app.
      * rewrite !match_here_One, Hp. reflexivity.
      * rewrite !match_here_One. destruct (p c); [|reflexivity].
        specialize (IH u m r Hm Hr).
        destruct (match_here (tagged head) (u ++ 60 :: m ++ [62]))
          as [[? ?]|]; [discriminate|].
        rewrite IH; reflexivity.
    + assert (Skip : forall u,
                 push [] (match_here (tagged head) (u ++ 60 :: m ++ [62])) = None ->
                 push [] (match_here (tagged head) (u ++ 60 :: r ++ [62])) = None).
      { intros u0. specialize (IH u0 m r Hm Hr).
        destruct (match_here (tagged head) (u0 ++ 60 :: m ++ [62]))
          as [[? ?]|]; [discriminate|].
        rewrite IH; reflexivity. }
      destruct u as [|c u]; simpl app.
      * rewrite !match_here_Opt, Hp. apply (Skip []).
      * rewrite !match_here_Opt. destruct (p c); [|apply (Skip (c :: u))].
        specialize (IH u m r Hm Hr).
        destruct (match_here (tagged head) (u ++ 60 :: m ++ [62]))
          as [[? ?]|]; [discriminate|].
        rewrite IH by reflexivity. apply (Skip (c :: u)).
Qed.

(** ** The heading pattern *)

Lemma heading_re_tagged : heading_re = One (eqc 60) :: tagged heading_tail.
Proof. reflexivity. Qed.

Lemma ci_h x : ci 104 x = true <-> x = 104 \/ x = 72.
Proof.
  unfold ci, range. cbn. rewrite !orb_false_r.
  rewrite orb_true_iff, !N.eqb_eq. tauto.
Qed.

Lemma range_digit d : range 49 54 d = true <-> 49 <= d <= 54.
Proof. unfold range. rewrite andb_true_iff, !N.leb_le. tauto. Qed.

Lemma heading_tail_rejects : rejects [60; 62] heading_tail.
Proof.
  repeat constructor; intros x [<-|[<-|[]]]; reflexivity.
Qed.

Lemma rejects_weaken xs ys head :
  incl ys xs -> rejects xs head -> rejects ys head.
Proof.
  intros I R. unfold rejects in *. eapply Forall_impl; [|exact R].
  intros [p|p| | |]; auto.
Qed.

Lemma heading_head_rejects : rejects [62] (One (eqc 60) :: heading_tail).
Proof.
  constructor.
  - intros x [<-|[]]; reflexivity.
  - apply (rejects_weaken [60; 62]); [|exact heading_tail_rejects].
    intros x [<-|[]]; right; left; reflexivity.
Qed.

(** What a match of the heading pattern is: "<", "/" or nothing, "h" or
    "H", a digit from 1 to 6, text without ">", and ">". *)
Lemma heading_inv s caps rest :
  match_here heading_re s = Some (caps, rest) ->
  exists slash hc d att,
    caps = [[60]; slash; [hc]; [d]; att; [62]]
    /\ (slash = [] \/ slash = [47]) /\ (hc = 104 \/ hc = 72)
    /\ 49 <= d <= 54 /\ no_gt att
    /\ s = 60 :: slash ++ hc :: d :: att ++ 62 :: rest.
Proof.
  intros M. destruct (match_here_sound _ _ _ _ M) as [E F].
  unfold heading_re in F.
  inversion F as [|? c0 ? l0 H0 F0]; subst.
  inversion F0 as [|? c1 ? l1 H1 F1]; subst.
  inversion F1 as [|? c2 ? l2 H2 F2]; subst.
  inversion F2 as [|? c3 ? l3 H3 F3]; subst.
  inversion F3 as [|? c4 ? l4 H4 F4]; subst.
  inversion F4 as [|? c5 ? l5 H5 F5]; subst.
  inversion F5; subst. cbn [item_ok] in *. clear M F F0 F1 F2 F3 F4 F5.
  destruct H0 as (x0 & -> & X0). apply N.eqb_eq in X0. subst x0.
  destruct H2 as (hc & -> & X2). apply ci_h in X2.
  destruct H3 as (d & -> & X3). apply range_digit in X3.
  destruct H5 as (x5 & -> & X5). apply N.eqb_eq in X5. subst x5.
  exists c1, hc, d, c4. repeat split; auto; try tauto.
  - destruct H1 as [->|(x1 & -> & X1)]; [left; reflexivity|].
    apply N.eqb_eq in X1. subst x1. right; reflexivity.
  - unfold matched. simpl. rewrite ?app_nil_r.
    repeat (rewrite <- app_assoc; simpl). reflexivity.
Qed.

Lemma heading_intro slash hc d att rest :
  (slash = [] \/ slash = [47]) -> (hc = 104 \/ hc = 72) -> 49 <= d <= 54 ->
  no_gt att ->
  match_here heading_re (60 :: slash ++ hc :: d :: att ++ 62 :: rest) =
  Some ([[60]; slash; [hc]; [d]; att; [62]], rest).
Proof.
  intros Hs Hh Hd Ha. unfold heading_re.
  rewrite match_here_One. change (eqc 60 60) with true. cbv iota.
  assert (T : match_here [One (ci 104); One (range 49 54); Star (neqc 62);
                          One (eqc 62)] (hc :: d :: att ++ 62 :: rest) =
              Some ([[hc]; [d]; att; [62]], rest)).
  { rewrite match_here_One. rewrite (proj2 (ci_h hc) Hh).
    rewrite match_here_One. rewrite (proj2 (range_digit d) Hd).
    rewrite match_tag_end.
    rewrite span_app; auto; try (intros c r' E; inversion E; reflexivity). }
  destruct Hs as [->| ->]; simpl app.
  - rewrite match_here_Opt.
    assert (E : eqc 47 hc = false) by (destruct Hh as [->| ->]; reflexivity).
    rewrite E, T. reflexivity.
  - rewrite match_here_Opt. change (eqc 47 47) with true. cbv iota.
    rewrite T. reflexivity.
Qed.

Lemma tagged_local_none head u v : rejects [62] head -> no_gt u ->
  match_here (tagged head) (u ++ 62 :: v) = None <->
  match_here (tagged head) (u ++ [62]) = None.
Proof.
  intros R Hu. rewrite (tagged_local head R u v Hu).
  destruct (match_here (tagged head) (u ++ [62])) as [[? ?]|];
    split; intros; congruence.
Qed.

(** A position in front of a heading tag that has no match keeps having
    none when the tag is replaced by another text from "<" to ">". *)
Lemma heading_front_stable p2 m r z z' :
  p2 <> [] -> no_gt m -> no_gt r ->
  match_here heading_re (p2 ++ (60 :: m ++ [62]) ++ z) = None ->
  match_here heading_re (p2 ++ (60 :: r ++ [62]) ++ z') = None.
Proof.
  intros Hne Hm Hr.
  rewrite heading_re_tagged.
  change (One (eqc 60) :: tagged heading_tail)
    with (tagged (One (eqc 60) :: heading_tail)).
  destruct (in_dec N.eq_dec 62 p2) as [Hin|Hin].
  - destruct (first_gt p2 Hin) as (u & v & -> & Hu).
    rewrite <- !app_assoc. simpl app.
    intros H. apply (tagged_local_none _ u _ heading_head_rejects Hu) in H.
    apply (tagged_local_none _ u _ heading_head_rejects Hu). exact H.
  - assert (Hp2 : no_gt p2).
    { unfold no_gt. apply forallb_forall. intros x Hx. unfold neqc.
      apply negb_true_iff, N.eqb_neq. congruence. }
    replace (p2 ++ (60 :: m ++ [62]) ++ z) with ((p2 ++ 60 :: m) ++ 62 :: z)
      by (simpl; rewrite <- ?app_assoc; simpl; rewrite <- ?app_assoc;
          reflexivity).
    replace (p2 ++ (60 :: r ++ [62]) ++ z') with ((p2 ++ 60 :: r) ++ 62 :: z')
      by (simpl; rewrite <- ?app_assoc; simpl; rewrite <- ?app_assoc;
          reflexivity).
    assert (N1 : forall x, no_gt x -> no_gt (p2 ++ 60 :: x)).
    { intros x Hx. apply no_gt_app; split; auto. }
    intros H. apply (tagged_local_none _ _ z heading_head_rejects (N1 _ Hm)) in H.
    apply (tagged_local_none _ _ z' heading_head_rejects (N1 _ Hr)).
    revert H. rewrite <- !app_assoc. simpl app.
    destruct p2 as [|c p2]; [congruence|]. simpl app.
    change (tagged (One (eqc 60) :: heading_tail))
      with (One (eqc 60) :: tagged heading_tail).
    rewrite !match_here_One. destruct (eqc 60 c); [|reflexivity].
    pose proof (tagged_head_only _ heading_tail_rejects p2 m r Hm Hr) as T.
    destruct (match_here (tagged heading_tail) (p2 ++ 60 :: m ++ [62]))
      as [[? ?]|]; [discriminate|].
    rewrite T; reflexivity.
Qed.

(** ** Shifting, match by match *)

Lemma shift_repl_caps caps : shift_repl caps = matched (shift_caps caps).
Proof.
  unfold shift_repl, matched, shift_caps. simpl.
  rewrite ?app_nil_r. reflexivity.
Qed.

Lemma tag_of_shift caps : tag_of (shift_caps caps) = demote (tag_of caps).
Proof.
  unfold tag_of, demote, shift_caps, group, str_of_level.
  cbn [nth closing level attrs int_of_digit].
  f_equal.
  - lia.
  - destruct (truthy (nth 1 caps [])); reflexivity.
Qed.

Lemma heading_consumes : consumes heading_re = true.
Proof. reflexivity. Qed.

(** The tag written for a match is a match again, of the same shape. *)
Lemma heading_shift_match s caps rest z :
  match_here heading_re s = Some (caps, rest) ->
  match_here heading_re (shift_repl caps ++ z) = Some (shift_caps caps, z)
  /\ (exists m, no_gt m /\ matched caps = 60 :: m ++ [62])
  /\ (exists r, no_gt r /\ shift_repl caps = 60 :: r ++ [62]).
Proof.
  intros M.
  destruct (heading_inv _ _ _ M) as (slash & hc & d & att & -> & Hs & Hh & Hd & Ha & _).
  assert (Hsl : no_gt slash) by (destruct Hs as [->| ->]; reflexivity).
  assert (Hhc : hc <> 62) by (destruct Hh as [->| ->]; discriminate).
  split; [|split].
  - unfold shift_repl, shift_caps, group, str_of_level, int_of_digit; cbn [nth].
    change (lit "<") with [60]. change (lit "h") with [104].
    change (lit ">") with [62]. cbn [app].
    set (d' := 48 + N.min (d - 48 + 1) 6).
    set (att' := if negb (truthy slash) then att else []).
    replace ((slash ++ 104 :: d' :: att' ++ [62]) ++ z)
      with (slash ++ 104 :: d' :: att' ++ 62 :: z)
      by (repeat (rewrite <- app_assoc; cbn [app]); reflexivity).
    apply heading_intro; auto.
    + subst d'. lia.
    + subst att'. destruct (negb (truthy slash)); [assumption|reflexivity].
  - exists (slash ++ hc :: d :: att). split.
    + apply no_gt_app; split; auto. apply no_gt_cons; split; auto.
      apply no_gt_cons; split; auto. lia.
    + unfold matched. cbn [concat app]. rewrite ?app_nil_r.
      repeat (rewrite <- app_assoc; cbn [app]). reflexivity.
  - unfold shift_repl, group, str_of_level, int_of_digit; cbn [nth].
    change (lit "<") with [60]. change (lit "h") with [104].
    change (lit ">") with [62]. cbn [app].
    set (d' := 48 + N.min (d - 48 + 1) 6).
    set (att' := if negb (truthy slash) then att else []).
    exists (slash ++ 104 :: d' :: att'). split.
    + apply no_gt_app; split; auto. apply no_gt_cons; split; [discriminate|].
      apply no_gt_cons; split; [subst d'; lia|].
      subst att'. destruct (negb (truthy slash)); [assumption|reflexivity].
    + repeat (rewrite <- app_assoc; cbn [app]). reflexivity.
Qed.

Lemma search_shift s pre caps rest z :
  search heading_re s = Some (pre, caps, rest) ->
  search heading_re (pre ++ shift_repl caps ++ z) =
  Some (pre, shift_caps caps, z).
Proof.
  intros S. destruct (search_sound _ _ _ _ _ S) as (_ & M & Hfirst).
  destruct (heading_shift_match _ _ _ z M)
    as (M' & (m & Hm & Em) & (r & Hr & Er)).
  apply search_complete; [exact M'|].
  intros p1 p2 Hp Hne. specialize (Hfirst p1 p2 Hp Hne).
  rewrite Er. rewrite Em in Hfirst.
  exact (heading_front_stable p2 m r rest z Hne Hm Hr Hfirst).
Qed.

(** The matches of the shifted text are the shifted matches of the text. *)
Lemma finditer_shift s :
  finditer heading_re (shift_headings s) =
  map shift_seg (finditer heading_re s).
Proof.
  unfold shift_headings, re_sub.
  apply (finditer_ind heading_re
           (fun s l => finditer heading_re (concat (map (seg_sub shift_repl) l))
                       = map shift_seg l)); [reflexivity| |].
  - intros s0 S. cbn [map concat seg_sub]. rewrite app_nil_r.
    rewrite finditer_unfold by reflexivity. now rewrite S.
  - intros s0 pre caps rest S IH. cbn [map concat seg_sub shift_seg].
    rewrite finditer_unfold by reflexivity.
    rewrite (search_shift _ _ _ _ _ S). now rewrite IH.
Qed.

Lemma hits_map_shift l : hits (map shift_seg l) = map shift_caps (hits l).
Proof.
  induction l as [|[t|caps] l IH]; simpl; auto. now rewrite IH.
Qed.

Lemma heading_tags_shift s :
  heading_tags (shift_headings s) = map demote (heading_tags s).
Proof.
  unfold heading_tags. rewrite finditer_shift, hits_map_shift, !map_map.
  apply map_ext. exact tag_of_shift.
Qed.

Lemma finditer_hits_valid re s caps : consumes re = true ->
  In caps (hits (finditer re s)) ->
  exists z, match_here re (matched caps ++ z) = Some (caps, z).
Proof.
  intros C.
  apply (finditer_ind re
           (fun s l => In caps (hits l) ->
                       exists z, match_here re (matched caps ++ z) = Some (caps, z)));
    auto.
  - simpl. tauto.
  - intros s0 pre caps0 rest S IH [<-|H]; [|auto].
    destruct (search_sound _ _ _ _ _ S) as (_ & M & _). eauto.
Qed.

Lemma heading_tags_level s t :
  In t (heading_tags s) -> 1 <= level t <= 6.
Proof.
  unfold heading_tags. rewrite in_map_iff. intros (caps & <- & H).
  destruct (finditer_hits_valid _ _ _ heading_consumes H) as (z & M).
  destruct (heading_inv _ _ _ M) as (slash & hc & d & att & -> & _ & _ & Hd & _).
  unfold tag_of, group, int_of_digit; simpl. lia.
Qed.

(** ** Matches of a tag pattern in a text put together from two *)

Lemma gt_closed_nil : gt_closed [].
Proof.
  intros p1 p2 E Hne. symmetry in E. apply app_eq_nil in E. tauto.
Qed.

Lemma gt_closed_snoc a : gt_closed (a ++ [62]).
Proof.
  intros p1 p2 E Hne.
  destruct (exists_last Hne) as (q & x & ->).
  rewrite app_assoc in E. apply app_inj_tail in E as [_ <-].
  rewrite in_app_iff. right; left; reflexivity.
Qed.

Lemma gt_closed_suffix a p q : a = p ++ q -> gt_closed a -> gt_closed q.
Proof.
  intros -> H p1 p2 -> Hne. apply (H (p ++ p1) p2); auto.
  now rewrite app_assoc.
Qed.

Lemma search_cons re c s :
  search re (c :: s) =
  match match_here re (c :: s) with
  | Some (caps, rest) => Some ([], caps, rest)
  | None =>
      match search re s with
      | Some (pre, caps, rest) => Some (c :: pre, caps, rest)
      | None => None
      end
  end.
Proof. reflexivity. Qed.

Lemma search_here re s caps rest :
  match_here re s = Some (caps, rest) -> search re s = Some ([], caps, rest).
Proof. intros M. destruct s; simpl; now rewrite M. Qed.

Lemma search_some_of_suffix re p1 : forall p2,
  match_here re p2 <> None -> search re (p1 ++ p2) <> None.
Proof.
  induction p1 as [|c p1 IH]; intros p2 H; cbn [app].
  - destruct (match_here re p2) as [[caps rest]|] eqn:M; [|congruence].
    rewrite (search_here _ _ _ _ M). discriminate.
  - rewrite search_cons.
    destruct (match_here re (c :: p1 ++ p2)) as [[? ?]|]; [discriminate|].
    specialize (IH p2 H).
    destruct (search re (p1 ++ p2)) as [[[? ?] ?]|]; [discriminate|congruence].
Qed.

Lemma search_skip re a b :
  (forall p1 p2, a = p1 ++ p2 -> p2 <> [] -> match_here re (p2 ++ b) = None) ->
  search re (a ++ b) =
  match search re b with
  | Some (pre, caps, rest) => Some (a ++ pre, caps, rest)
  | None => None
  end.
Proof.
  induction a as [|c a IH]; intros H.
  - cbn [app]. destruct (search re b) as [[[? ?] ?]|]; reflexivity.
  - cbn [app]. rewrite search_cons.
    assert (H0 := H [] (c :: a) eq_refl ltac:(discriminate)).
    cbn [app] in H0. rewrite H0. rewrite IH.
    + destruct (search re b) as [[[? ?] ?]|]; reflexivity.
    + intros p1 p2 -> Hne. apply (H (c :: p1) p2); auto.
Qed.

Lemma tagged_consumes head : consumes (tagged head) = true.
Proof.
  unfold consumes, tagged. rewrite existsb_app. simpl.
  now rewrite orb_true_r.
Qed.

Lemma hits_app head a b : rejects [62] head -> gt_closed a ->
  hits (finditer (tagged head) (a ++ b)) =
  hits (finditer (tagged head) a) ++ hits (finditer (tagged head) b).
Proof.
  intros R. pose proof (tagged_consumes head) as C.
  apply (finditer_ind (tagged head)
           (fun a l => gt_closed a ->
                       hits (finditer (tagged head) (a ++ b)) =
                       hits l ++ hits (finditer (tagged head) b))); auto.
  - intros s S G. cbn [hits flat_map app].
    rewrite (finditer_unfold _ (s ++ b)), (finditer_unfold _ b) by assumption.
    rewrite search_skip.
    + destruct (search (tagged head) b) as [[[? ?] ?]|]; reflexivity.
    + intros p1 p2 E Hne. rewrite (tagged_app head p2 b R (G p1 p2 E Hne)).
      now rewrite (search_none_inv _ _ _ _ S E).
  - intros s pre caps rest S IH G.
    destruct (search_sound _ _ _ _ _ S) as (E & M & Hfirst).
    destruct (tagged_last _ _ _ _ M) as [m Em].
    assert (In1 : forall x y, In 62 (x ++ matched caps ++ y)).
    { intros x y. rewrite Em, !in_app_iff. right; left; right; left.
      reflexivity. }
    assert (S' : search (tagged head) (s ++ b) = Some (pre, caps, rest ++ b)).
    { rewrite E, <- !app_assoc. apply search_complete.
      - rewrite app_assoc, tagged_app, M; auto. apply (In1 []).
      - intros p1 p2 Hp Hne. specialize (Hfirst p1 p2 Hp Hne).
        replace (p2 ++ matched caps ++ rest ++ b)
          with ((p2 ++ matched caps ++ rest) ++ b)
          by (now rewrite <- !app_assoc).
        rewrite tagged_app, Hfirst; auto. }
    rewrite (finditer_unfold _ (s ++ b)) by assumption. rewrite S'.
    cbn [hits flat_map app]. f_equal. apply IH.
    apply (gt_closed_suffix s (pre ++ matched caps) rest); auto.
    now rewrite <- app_assoc.
Qed.

(** ** The heading tags of the output *)

Lemma heading_hits_here s caps rest :
  match_here heading_re s = Some (caps, rest) ->
  hits (finditer heading_re s) = caps :: hits (finditer heading_re rest).
Proof.
  intros M. rewrite finditer_unfold by reflexivity.
  now rewrite (search_here _ _ _ _ M).
Qed.

Lemma heading_hits_gap g s :
  forallb (neqc 60) g = true ->
  hits (finditer heading_re (g ++ s)) = hits (finditer heading_re s).
Proof.
  intros Hg.
  rewrite (finditer_unfold _ (g ++ s)), (finditer_unfold _ s) by reflexivity.
  rewrite search_skip.
  - destruct (search heading_re s) as [[[? ?] ?]|]; reflexivity.
  - intros p1 p2 -> Hne. rewrite forallb_app in Hg.
    apply andb_prop in Hg as [_ Hg].
    destruct p2 as [|c p2]; [congruence|]. cbn [forallb] in Hg.
    apply andb_prop in Hg as [Hc _]. unfold neqc in Hc.
    apply negb_true_iff in Hc. cbn [app]. unfold heading_re.
    rewrite match_here_One. unfold eqc. now rewrite Hc.
Qed.

Lemma html_escape_no_lt t : forallb (neqc 60) (html_escape t) = true.
Proof.
  induction t as [|c t IH]; [reflexivity|]. cbn [html_escape].
  rewrite forallb_app, IH, andb_true_r.
  destruct (c =? 38); [reflexivity|].
  destruct (c =? 60) eqn:E; [reflexivity|].
  destruct (c =? 62); [reflexivity|].
  destruct (c =? 34); [reflexivity|].
  destruct (c =? 39); [reflexivity|].
  cbn [forallb]. unfold neqc. now rewrite E.
Qed.

Lemma title_html_hits title s :
  hits (finditer heading_re (title_html title ++ s)) =
  h1_open_caps :: h1_close_caps :: hits (finditer heading_re s).
Proof.
  unfold title_html. change (lit "<h1>") with [60; 104; 49; 62].
  change (lit "</h1>") with [60; 47; 104; 49; 62].
  rewrite <- !app_assoc. cbn [app].
  rewrite (heading_hits_here _ h1_open_caps
             (html_escape title ++ 60 :: 47 :: 104 :: 49 :: 62 :: 10 :: s)).
  2:{ apply (heading_intro [] 104 49 []); auto; try lia. reflexivity. }
  rewrite heading_hits_gap by apply html_escape_no_lt.
  rewrite (heading_hits_here _ h1_close_caps (10 :: s)).
  2:{ apply (heading_intro [47] 104 49 []); auto; try lia. reflexivity. }
  change (10 :: s) with ([10] ++ s).
  rewrite (heading_hits_gap [10] s) by reflexivity. reflexivity.
Qed.

Lemma body_re_tagged : body_re = tagged (lits_ci "<body").
Proof. reflexivity. Qed.

Lemma heading_hits_app a b : gt_closed a ->
  hits (finditer heading_re (a ++ b)) =
  hits (finditer heading_re a) ++ hits (finditer heading_re b).
Proof.
  intros G. rewrite heading_re_tagged.
  change (One (eqc 60) :: tagged heading_tail)
    with (tagged (One (eqc 60) :: heading_tail)).
  apply hits_app; [exact heading_head_rejects|exact G].
Qed.

(** Inserting the title adds its two tags to the heading tags of the text,
    and changes none of them. *)
Lemma insert_title_tags text title :
  exists l1 l2,
    heading_tags (insert_title text title) = l1 ++ [h1_open; h1_close] ++ l2
    /\ heading_tags text = l1 ++ l2.
Proof.
  unfold insert_title, heading_tags.
  destruct (search body_re text) as [[[pre caps] rest]|] eqn:S.
  - destruct (search_sound _ _ _ _ _ S) as (E & M & _).
    rewrite body_re_tagged in M. destruct (tagged_last _ _ _ _ M) as [m Em].
    assert (G : gt_closed (pre ++ matched caps)).
    { rewrite Em, app_assoc. apply gt_closed_snoc. }
    exists (map tag_of (hits (finditer heading_re (pre ++ matched caps)))),
           (map tag_of (hits (finditer heading_re rest))).
    split.
    + rewrite heading_hits_app by assumption.
      change ([10] ++ title_html title ++ rest)
        with ([10] ++ (title_html title ++ rest)).
      rewrite (heading_hits_gap [10]) by reflexivity.
      rewrite title_html_hits, map_app. reflexivity.
    + rewrite E at 1. rewrite app_assoc.
      rewrite heading_hits_app by assumption. now rewrite map_app.
  - exists [], (map tag_of (hits (finditer heading_re text))).
    split; [|reflexivity]. rewrite title_html_hits. reflexivity.
Qed.

Lemma filter_level1_nil (f : HeadingTag -> bool) l :
  (forall t, f t = true -> level t = 1) ->
  Forall (fun t => 2 <= level t <= 6) l -> filter f l = [].
Proof.
  intros Hf. induction 1 as [|t l Ht _ IH]; [reflexivity|].
  cbn [filter]. destruct (f t) eqn:E; [|exact IH].
  apply Hf in E. lia.
Qed.

(** C1.  The heading tags of a document are the matches of the pattern
    [shift_headings] scans for.  For every document and every override
    the heading tags of [normalize]'s output are those of the input, each
    moved to the level min(level + 1, 6), which lies between 2 and 6, with
    the opening and the closing level-1 tag of the inserted title next to
    one another among them; so the output has exactly one opening and one
    closing level-1 tag. *)
Theorem normalize_one_h1 (unescape : str -> str) (text : str)
    (title_override : option str) :
  let out := heading_tags (normalize unescape text title_override) in
  (exists l1 l2,
      out = l1 ++ [h1_open; h1_close] ++ l2
      /\ l1 ++ l2 = map demote (heading_tags text)
      /\ Forall (fun t => 2 <= level t <= 6) (l1 ++ l2))
  /\ length (filter is_h1_open out) = 1%nat
  /\ length (filter is_h1_close out) = 1%nat.
Proof.
  cbv zeta. unfold normalize.
  destruct (insert_title_tags (shift_headings text)
              (resolve_title unescape text title_override))
    as (l1 & l2 & Hout & Hin).
  rewrite heading_tags_shift in Hin.
  assert (F : Forall (fun t => 2 <= level t <= 6) (l1 ++ l2)).
  { rewrite <- Hin. apply Forall_forall. intros t Ht.
    apply in_map_iff in Ht as (t0 & <- & Ht0).
    apply heading_tags_level in Ht0. unfold demote; cbn [level]. lia. }
  split; [exists l1, l2; auto|].
  rewrite Hout. apply Forall_app in F as [F1 F2].
  rewrite !filter_app. cbn [filter is_h1_open is_h1_close h1_open h1_close
                             closing level negb andb N.eqb Pos.eqb].
  rewrite !(filter_level1_nil is_h1_open), !(filter_level1_nil is_h1_close);
    auto;
    intros t H; apply andb_prop in H as [_ H]; now apply N.eqb_eq.
Qed.

(** ** The tag [shift_headings] writes, in its place *)

Lemma heading_none_alone p2 x :
  match_here heading_re (p2 ++ x) = None -> In 62 x ->
  match_here heading_re p2 = None.
Proof.
  intros H Hx. rewrite heading_re_tagged in *.
  change (One (eqc 60) :: tagged heading_tail)
    with (tagged (One (eqc 60) :: heading_tail)) in *.
  destruct (in_dec N.eq_dec 62 p2) as [Hin|Hin].
  - rewrite (tagged_app _ p2 x heading_head_rejects Hin) in H.
    destruct (match_here _ p2) as [[? ?]|]; [discriminate|reflexivity].
  - apply tagged_no_gt. unfold no_gt. apply forallb_forall. intros c Hc.
    unfold neqc. apply negb_true_iff, N.eqb_neq. congruence.
Qed.

(** The text in front of the first heading tag holds no heading tag. *)
Lemma shift_gap s pre caps rest :
  search heading_re s = Some (pre, caps, rest) -> shift_headings pre = pre.
Proof.
  intros S. destruct (search_sound _ _ _ _ _ S) as (_ & M & Hfirst).
  destruct (heading_shift_match _ _ _ [] M) as (_ & (m & Hm & Em) & _).
  unfold shift_headings. rewrite re_sub_unfold by reflexivity.
  rewrite search_none; [reflexivity|].
  intros p1 p2 E. destruct p2 as [|c p2].
  - apply tagged_no_gt with (head := One (eqc 60) :: heading_tail).
    reflexivity.
  - apply (heading_none_alone (c :: p2) (matched caps ++ rest)).
    + apply (Hfirst p1); [assumption|discriminate].
    + rewrite Em. cbn [app]. right. rewrite !in_app_iff.
      left; right; left; reflexivity.
Qed.

(** Every heading tag of a text is replaced where it stands: the shifted
    text is the shifted text in front of the tag, the tag written for it,
    and the shifted text behind it. *)
Lemma shift_at_hit s caps :
  In (Hit caps) (finditer heading_re s) ->
  exists pre post,
    s = pre ++ matched caps ++ post
    /\ shift_headings s =
       shift_headings pre ++ shift_repl caps ++ shift_headings post.
Proof.
  apply (finditer_ind heading_re
           (fun s l => In (Hit caps) l ->
                       exists pre post,
                         s = pre ++ matched caps ++ post
                         /\ shift_headings s =
                            shift_headings pre ++ shift_repl caps
                            ++ shift_headings post)); [reflexivity| |].
  - intros s0 _ [H|[]]. discriminate.
  - intros s0 pre0 caps0 rest S IH Hin.
    destruct (search_sound _ _ _ _ _ S) as (E & M & Hfirst).
    assert (U : shift_headings s0 =
                pre0 ++ shift_repl caps0 ++ shift_headings rest).
    { unfold shift_headings. rewrite re_sub_unfold by reflexivity.
      now rewrite S. }
    destruct Hin as [H|[H|H]]; [discriminate| |].
    + inversion H; subst caps0. exists pre0, rest. split; [exact E|].
      now rewrite U, (shift_gap _ _ _ _ S).
    + destruct (IH H) as (pre1 & post & E1 & U1).
      exists (pre0 ++ matched caps0 ++ pre1), post. split.
      * rewrite E, E1, <- !app_assoc. reflexivity.
      * destruct (heading_shift_match _ _ _ [] M) as (_ & (m & Hm & Em) & _).
        destruct (heading_inv _ _ _ M)
          as (slash & hc & d & att & Ec & Hs & Hh & Hd & Ha & Es).
        assert (M1 : match_here heading_re (matched caps0 ++ pre1)
                     = Some (caps0, pre1)).
        { rewrite Ec. unfold matched. cbn [concat app]. rewrite ?app_nil_r.
          repeat (rewrite <- app_assoc; cbn [app]).
          apply heading_intro; auto. }
        assert (S1 : search heading_re (pre0 ++ matched caps0 ++ pre1)
                     = Some (pre0, caps0, pre1)).
        { apply search_complete; [exact M1|].
          intros p1 p2 Ep Hne. specialize (Hfirst p1 p2 Ep Hne).
          rewrite Em in Hfirst |- *.
          exact (heading_front_stable p2 m m rest pre1 Hne Hm Hm Hfirst). }
        assert (U0 : shift_headings (pre0 ++ matched caps0 ++ pre1) =
                     pre0 ++ shift_repl caps0 ++ shift_headings pre1).
        { unfold shift_headings. rewrite re_sub_unfold by reflexivity.
          now rewrite S1. }
        rewrite U, U1, U0, <- !app_assoc. reflexivity.
Qed.

(** C2.  For every heading tag [shift_headings] matches in a text ("<", "/"
    or nothing, "h" or "H", a digit from 1 to 6, text without ">", and
    ">"), the shifted text holds, between the shifted text in front of the
    tag and the shifted text behind it, the tag written again with the
    level min(level + 1, 6), which is 6 for the levels 5 and 6, with its
    attribute text when it is an opening tag and without any when it is a
    closing tag; that tag is what [shift_repl] writes for the match; and
    the heading tags of the shifted text are those of the text, each
    changed so. *)
Theorem shift_headings_reemits (text : str) (caps : list str) :
  In (Hit caps) (finditer heading_re text) ->
  let t := tag_of caps in
  let emitted :=
    lit "<" ++ (if closing t then lit "/" else []) ++ lit "h"
    ++ str_of_level (N.min (level t + 1) 6)
    ++ (if closing t then [] else attrs t) ++ lit ">" in
  (exists hc, (hc = 104 \/ hc = 72)
     /\ matched caps =
        lit "<" ++ (if closing t then lit "/" else []) ++ [hc]
        ++ str_of_level (level t) ++ attrs t ++ lit ">")
  /\ 1 <= level t <= 6
  /\ (5 <= level t -> N.min (level t + 1) 6 = 6)
  /\ shift_repl caps = emitted
  /\ (exists pre post,
        text = pre ++ matched caps ++ post
        /\ shift_headings text =
           shift_headings pre ++ emitted ++ shift_headings post)
  /\ heading_tags (shift_headings text) = map demote (heading_tags text)
  /\ In (demote t) (heading_tags (shift_headings text)).
Proof.
  intros Hin. cbv zeta.
  assert (H : In caps (hits (finditer heading_re text))).
  { unfold hits. apply in_flat_map. exists (Hit caps). split; [assumption|].
    left; reflexivity. }
  destruct (shift_at_hit text caps Hin) as (pre & post & E & U).
  destruct (finditer_hits_valid _ _ _ heading_consumes H) as (z & M).
  destruct (heading_inv _ _ _ M)
    as (slash & hc & d & att & -> & Hs & Hh & Hd & Ha & _).
  assert (R : shift_repl [[60]; slash; [hc]; [d]; att; [62]] =
              lit "<" ++ (if truthy slash then lit "/" else []) ++ lit "h"
              ++ str_of_level (N.min (d - 48 + 1) 6)
              ++ (if truthy slash then [] else att) ++ lit ">").
  { destruct Hs as [->| ->]; reflexivity. }
  unfold tag_of, group, int_of_digit, str_of_level in *.
  cbn [nth closing level attrs] in *.
  replace (48 + (d - 48)) with d by lia.
  split; [|split; [lia|split; [lia|split; [exact R|split; [|split]]]]].
  - exists hc. split; [assumption|].
    destruct Hs as [->| ->]; unfold matched; cbn [concat app truthy];
      reflexivity.
  - exists pre, post. split; [exact E|]. now rewrite U, R.
  - apply heading_tags_shift.
  - rewrite heading_tags_shift. unfold heading_tags.
    apply in_map. apply in_map_iff.
    exists [[60]; slash; [hc]; [d]; att; [62]]. split; [reflexivity|exact H].
Qed.

Lemma shift_headings_reemits_witness :
  exists pre post,
    lit "a<H5 class=x>b" = pre ++ lit "<H5 class=x>" ++ post
    /\ shift_headings (lit "a<H5 class=x>b") =
       shift_headings pre ++ lit "<h6 class=x>" ++ shift_headings post.
Proof.
  assert (Hin : In (Hit [[60]; []; [72]; [53]; lit " class=x"; [62]])
                   (finditer heading_re (lit "a<H5 class=x>b"))).
  { vm_compute. right; left; reflexivity. }
  destruct (shift_headings_reemits _ _ Hin) as (_ & _ & _ & _ & H & _).
  exact H.
Defined.

Lemma shifted_prefix pre : forall s s',
  (forall p1 p2, pre = p1 ++ p2 -> p2 <> [] ->
                 match_here heading_re (p2 ++ s) = None) ->
  shifted s s' -> shifted (pre ++ s) (pre ++ s').
Proof.
  induction pre as [|c pre IH]; intros s s' H Hs; [exact Hs|].
  cbn [app]. constructor.
  - apply (H [] (c :: pre)); [reflexivity|discriminate].
  - apply IH; auto. intros p1 p2 -> Hne. apply (H (c :: p1) p2); auto.
Qed.

(** [shift_headings] leaves everything but the matches of its pattern as
    it is: the text is cut into matches and the text between them, and the
    output is the same sequence with each match replaced and the text
    between them copied. *)
Lemma shift_headings_frame (text : str) :
  let segs := finditer heading_re text in
  concat (map seg_src segs) = text
  /\ shift_headings text = concat (map (seg_sub shift_repl) segs)
  /\ (forall t, In (Gap t) segs -> seg_sub shift_repl (Gap t) = t)
  /\ (forall caps, In (Hit caps) segs ->
        exists z, match_here heading_re (matched caps ++ z) = Some (caps, z))
  /\ shifted text (shift_headings text).
Proof.
  cbv zeta. split; [apply finditer_src; reflexivity|].
  split; [reflexivity|]. split; [reflexivity|]. split.
  - intros caps Hin. apply (finditer_hits_valid _ text _ heading_consumes).
    unfold hits. apply in_flat_map. exists (Hit caps). split; [assumption|].
    left; reflexivity.
  - unfold shift_headings, re_sub.
    apply (finditer_ind heading_re
             (fun s l => shifted s (concat (map (seg_sub shift_repl) l))));
      [reflexivity| |].
    + intros s S. cbn [map concat seg_sub]. rewrite app_nil_r.
      rewrite <- (app_nil_r s) at 1. rewrite <- (app_nil_r s) at 2.
      apply shifted_prefix; [|constructor].
      intros p1 p2 E Hne. rewrite app_nil_r.
      exact (search_none_inv _ _ _ _ S E).
    + intros s pre caps rest S IH. cbn [map concat seg_sub].
      destruct (search_sound _ _ _ _ _ S) as (E & M & Hfirst).
      rewrite E at 1. apply shifted_prefix; [exact Hfirst|].
      econstructor; eauto.
Qed.

(** C7 fails on the code: the pattern of [shift_headings] does not look at
    what follows the digit, so a tag whose name only begins with h1 to h6
    is rewritten as well.  The documents below hold no tag named h1 to h6;
    the opening tags get another name, and the closing tags lose the rest
    of theirs and no longer close the element. *)
Theorem shift_headings_rewrites_other_tags :
  (has_heading_name (lit "<h10>x</h10>") = false
   /\ shift_headings (lit "<h10>x</h10>") = lit "<h20>x</h2>"
   /\ shift_headings (lit "<h10>x</h10>") <> lit "<h10>x</h10>")
  /\ (has_heading_name (lit "<h2-title>x</h2-title>") = false
      /\ shift_headings (lit "<h2-title>x</h2-title>")
         = lit "<h3-title>x</h3>"
      /\ shift_headings (lit "<h2-title>x</h2-title>")
         <> lit "<h2-title>x</h2-title>").
Proof. repeat split; try reflexivity; discriminate. Qed.

(** ** [clean_title] *)

Lemma sep_occurs_app a b : sep_occurs b = true -> sep_occurs (a ++ b) = true.
Proof.
  intros H. induction a as [|c a IH]; [exact H|].
  cbn [app sep_occurs]. rewrite IH. apply orb_true_r.
Qed.

Lemma sep_match_occurs s caps rest :
  match_here sep_re s = Some (caps, rest) -> sep_occurs s = true.
Proof.
  intros M. destruct (match_here_sound _ _ _ _ M) as [E F].
  unfold sep_re in F.
  inversion F as [|? ws ? l0 _ F0]; subst.
  inversion F0 as [|? c1 ? l1 H1 F1]; subst.
  inversion F1 as [|? ws2 ? l2 H2 F2]; subst.
  inversion F2; subst. cbn [item_ok] in *.
  destruct H1 as (c & -> & Hc). destruct H2 as [Hne Hws].
  destruct ws2 as [|w ws2]; [congruence|].
  cbn [forallb] in Hws. apply andb_prop in Hws as [Hw _].
  unfold matched. cbn [concat]. rewrite <- app_assoc.
  apply sep_occurs_app. cbn [app sep_occurs]. now rewrite Hc, Hw.
Qed.

Lemma sep_search_none s : sep_occurs s = false -> search sep_re s = None.
Proof.
  intros H. apply search_none. intros p1 p2 ->.
  destruct (match_here sep_re p2) as [[caps rest]|] eqn:M; [|reflexivity].
  apply sep_match_occurs in M. rewrite (sep_occurs_app p1 p2 M) in H.
  discriminate.
Qed.

Lemma sep_not_space c : sep_char c = true -> isspace c = false.
Proof.
  unfold sep_char. rewrite !orb_true_iff, !N.eqb_eq.
  intros [[[->| ->]| ->]| ->]; reflexivity.
Qed.

Lemma sep_match_here c w r :
  sep_char c = true -> isspace w = true ->
  match_here sep_re (c :: w :: r) <> None.
Proof.
  intros Hc Hw. unfold sep_re. rewrite match_here_Star.
  cbn [greedy]. rewrite (sep_not_space c Hc).
  rewrite match_here_One, Hc.
  cbn [match_here]. rewrite Hw.
  rewrite (greedy_total isspace (fun s => Some ([], s))) by discriminate.
  cbn. discriminate.
Qed.

Lemma sep_occurs_split s : sep_occurs s = true ->
  exists p1 c w r,
    s = p1 ++ c :: w :: r /\ sep_char c = true /\ isspace w = true.
Proof.
  induction s as [|c s IH]; cbn [sep_occurs]; [discriminate|].
  rewrite orb_true_iff. intros [H|H].
  - apply andb_prop in H as [Hc Hw]. destruct s as [|w s]; [discriminate|].
    exists [], c, w, s. auto.
  - destruct (IH H) as (p1 & c' & w & r & -> & Hc & Hw).
    exists (c :: p1), c', w, r. auto.
Qed.

(** [sep_occurs] says exactly that the pattern of [clean_title] has a
    match. *)
Lemma sep_search_iff s : sep_occurs s = false <-> search sep_re s = None.
Proof.
  split; [apply sep_search_none|].
  intros S. destruct (sep_occurs s) eqn:E; [|reflexivity].
  destruct (sep_occurs_split s E) as (p1 & c & w & r & -> & Hc & Hw).
  exfalso. revert S. apply search_some_of_suffix. now apply sep_match_here.
Qed.

Lemma lstrip_id s :
  match s with c :: _ => isspace c = false | [] => True end -> lstrip s = s.
Proof. destruct s as [|c s]; [reflexivity|]. cbn [lstrip]. now intros ->. Qed.

Lemma strip_trimmed s : trimmed s = true -> strip s = s.
Proof.
  destruct s as [|c s]; [reflexivity|]. unfold trimmed.
  rewrite andb_true_iff, !negb_true_iff. intros [Hc Hl].
  unfold strip. rewrite (lstrip_id (c :: s)) by exact Hc.
  unfold rstrip.
  assert (Hne : c :: s <> []) by discriminate.
  destruct (exists_last Hne) as (q & x & E). rewrite E in *.
  rewrite last_last in Hl. rewrite rev_app_distr. cbn [rev app].
  cbn [lstrip]. rewrite Hl. cbn [rev]. now rewrite rev_involutive.
Qed.

Lemma clean_title_nonempty s : clean_title s <> [].
Proof.
  unfold clean_title. destruct (strip (split_head sep_re s)); cbn [truthy];
    discriminate.
Qed.

(** C6, as the code has it.  When the separator does not occur in a string,
    [clean_title] returns the string trimmed of leading and trailing
    whitespace, and "Untitled" when nothing is left; so it returns a string
    unchanged when the string is not empty and neither begins nor ends with
    whitespace.  [clean_title] of the empty string is "Untitled". *)
Theorem clean_title_no_separator (s : str) :
  sep_occurs s = false ->
  clean_title s = (if truthy (strip s) then strip s else Untitled)
  /\ (truthy s = true -> trimmed s = true -> clean_title s = s)
  /\ clean_title [] = Untitled.
Proof.
  intros H. unfold clean_title, split_head.
  rewrite (sep_search_none s H). split; [reflexivity|]. split.
  - intros Ht Htr. rewrite (strip_trimmed s Htr). now rewrite Ht.
  - reflexivity.
Qed.

Lemma clean_title_no_separator_witness :
  clean_title (lit "My Title") = lit "My Title".
Proof.
  destruct (clean_title_no_separator (lit "My Title") eq_refl) as (_ & H & _).
  apply H; reflexivity.
Defined.

(** C6 as it is stated fails: a string without the separator that begins
    with a blank is not returned unchanged. *)
Lemma clean_title_not_identity :
  sep_occurs (lit " a") = false
  /\ clean_title (lit " a") = lit "a"
  /\ clean_title (lit " a") <> lit " a".
Proof. split; [reflexivity|]. split; [reflexivity|]. discriminate. Qed.

(** ** Literals matched without regard to case *)

Lemma lits_ci_ones a : lits_ci a = ones_ci (lit a).
Proof. reflexivity. Qed.

Lemma ci_eqb_length pat : forall o, ci_eqb pat o = true -> length o = length pat.
Proof.
  induction pat as [|c pat IH]; intros [|x o]; cbn [ci_eqb]; try discriminate;
    [reflexivity|].
  intros H. apply andb_prop in H as [_ H]. cbn [length]. now rewrite (IH o H).
Qed.

Lemma starts_ci_app pat : forall o z,
  ci_eqb pat o = true -> starts_ci pat (o ++ z) = true.
Proof.
  induction pat as [|c pat IH]; intros [|x o] z; cbn [ci_eqb]; try discriminate;
    [reflexivity|].
  intros H. apply andb_prop in H as [Hx H]. cbn [app starts_ci].
  now rewrite Hx, (IH o z H).
Qed.

Lemma ones_ci_sound pat : forall caps,
  Forall2 item_ok (ones_ci pat) caps ->
  ci_eqb pat (concat caps) = true /\ length caps = length pat.
Proof.
  induction pat as [|c pat IH]; intros caps F; inversion F as [|? m ? l H F'];
    subst; [split; reflexivity|].
  destruct H as (x & -> & Hx). destruct (IH _ F') as [E L].
  cbn [concat app ci_eqb length]. now rewrite Hx, E, L.
Qed.

Lemma ones_ci_match pat re : forall o z,
  ci_eqb pat o = true ->
  match_here (ones_ci pat ++ re) (o ++ z) =
  match match_here re z with
  | Some (caps, rest) => Some (map (fun x => [x]) o ++ caps, rest)
  | None => None
  end.
Proof.
  induction pat as [|c pat IH]; intros [|x o] z; cbn [ci_eqb]; try discriminate.
  - intros _. cbn [ones_ci map app].
    destruct (match_here re z) as [[? ?]|]; reflexivity.
  - intros H. apply andb_prop in H as [Hx H].
    cbn [ones_ci map app]. rewrite match_here_One, Hx.
    fold (ones_ci pat). rewrite (IH o z H).
    destruct (match_here re z) as [[? ?]|]; reflexivity.
Qed.

Lemma ones_ci_fail pat re : forall s,
  starts_ci pat s = false -> match_here (ones_ci pat ++ re) s = None.
Proof.
  induction pat as [|c pat IH]; intros s; cbn [starts_ci]; [discriminate|].
  destruct s as [|x s]; intros H; cbn [ones_ci map app].
  - reflexivity.
  - rewrite match_here_One. destruct (ci c x); [|reflexivity].
    fold (ones_ci pat). now rewrite (IH s H).
Qed.

(** ** The title pattern *)

Lemma title_open_with_text_app a b :
  title_open_with_text b = true -> title_open_with_text (a ++ b) = true.
Proof.
  intros H. induction a as [|c a IH]; [exact H|].
  cbn [app title_open_with_text]. rewrite IH. apply orb_true_r.
Qed.

Lemma title_inv s caps rest :
  match_here title_re s = Some (caps, rest) ->
  exists o content c,
    s = o ++ content ++ c ++ rest
    /\ matched caps = o ++ content ++ c
    /\ group 7 caps = content
    /\ ci_eqb (lit "<title>") o = true
    /\ content <> [] /\ forallb (neqc 60) content = true
    /\ ci_eqb (lit "</title>") c = true.
Proof.
  intros M. destruct (match_here_sound _ _ _ _ M) as [E F].
  unfold title_re in F. rewrite !lits_ci_ones in F.
  apply Forall2_app_inv_l in F. destruct F as (c1 & c2 & F1 & F2 & ->).
  apply Forall2_app_inv_l in F2. destruct F2 as (c3 & c4 & F3 & F4 & ->).
  inversion F3 as [|? content ? l0 H3 F3']; subst. inversion F3'; subst.
  destruct H3 as [Hne Hc].
  destruct (ones_ci_sound _ _ F1) as [E1 L1].
  destruct (ones_ci_sound _ _ F4) as [E4 L4].
  exists (concat c1), content, (concat c4).
  assert (Ec : matched (c1 ++ [content] ++ c4) =
               concat c1 ++ content ++ concat c4).
  { unfold matched. rewrite !concat_app. cbn [concat]. now rewrite app_nil_r. }
  repeat split; auto.
  - rewrite Ec, <- !app_assoc. reflexivity.
  - unfold group. rewrite app_nth2 by (rewrite L1; cbn; lia).
    rewrite L1. reflexivity.
Qed.

Lemma title_match_open s caps rest :
  match_here title_re s = Some (caps, rest) -> title_open_with_text s = true.
Proof.
  intros M.
  destruct (title_inv _ _ _ M) as (o & content & c & -> & _ & _ & Ho & Hne & Hc & _).
  pose proof (ci_eqb_length _ _ Ho) as L.
  destruct o as [|x o]; [discriminate|].
  cbn [app title_open_with_text].
  change (x :: o ++ content ++ c ++ rest) with ((x :: o) ++ content ++ c ++ rest).
  rewrite (starts_ci_app _ _ _ Ho).
  replace 7%nat with (length (x :: o)) by (rewrite L; reflexivity).
  rewrite skipn_app, skipn_all, Nat.sub_diag. cbn [app skipn].
  destruct content as [|y content]; [congruence|].
  cbn [forallb] in Hc. apply andb_prop in Hc as [Hy _].
  cbn [app]. now rewrite Hy.
Qed.

Lemma title_search_none s :
  title_open_with_text s = false -> search title_re s = None.
Proof.
  intros H. apply search_none. intros p1 p2 ->.
  destruct (match_here title_re p2) as [[caps rest]|] eqn:M; [|reflexivity].
  apply title_match_open in M.
  rewrite (title_open_with_text_app p1 p2 M) in H. discriminate.
Qed.

(** ** Title resolution *)

Lemma extract_title_chain (unescape : str -> str) (text : str) :
  extract_title unescape text =
  first_of [title_strategy unescape text; h1_strategy text] Untitled.
Proof.
  unfold extract_title, h1_fallback, title_strategy, h1_strategy.
  destruct (search title_re text) as [[[? caps] ?]|];
    try (destruct (truthy _ && negb _));
    destruct (search h1_re text) as [[[? caps'] ?]|]; reflexivity.
Qed.

(** C5 fails on the code: the title taken from an h1 element is not checked,
    and is empty when the element is. *)
Theorem h1_title_can_be_empty (unescape : str -> str) :
  resolve_title unescape (lit "<h1></h1>") None = []
  /\ resolve_title unescape (lit "<h1><img src=logo.png></h1>") None = [].
Proof. split; reflexivity. Qed.

(** C9.  The override "" is taken as no override: the title comes from the
    document, where [clean_title] of "" would be "Untitled". *)
Theorem empty_override_is_absent (unescape : str -> str) (text : str) :
  resolve_title unescape text (Some []) = extract_title unescape text
  /\ resolve_title unescape text (Some []) =
     first_of [title_strategy unescape text; h1_strategy text] Untitled
  /\ normalize unescape text (Some []) = normalize unescape text None
  /\ clean_title [] = Untitled
  /\ resolve_title unescape (lit "<h1>A</h1>") (Some []) = lit "A".
Proof.
  split; [reflexivity|]. split.
  - apply extract_title_chain.
  - repeat split; reflexivity.
Qed.

(** The override and the title element never give an empty title. *)
Lemma checked_strategies_nonempty (unescape : str -> str) (text : str)
    (title_override : option str) (t : str) :
  override_strategy title_override = Some t
  \/ title_strategy unescape text = Some t ->
  t <> [].
Proof.
  unfold override_strategy, title_strategy. intros [H|H].
  - destruct title_override as [o|]; [|discriminate].
    destruct (truthy o); inversion H. apply clean_title_nonempty.
  - destruct (search title_re text) as [[[? caps] ?]|]; [|discriminate].
    cbv zeta in H. destruct (truthy _ && negb _); inversion H.
    apply clean_title_nonempty.
Qed.

(** C10.  A match of the title pattern is "<title>" itself, case apart and
    without attributes, then content that is not empty and holds no "<",
    then "</title>".  A document in which no "<title>" is followed by a
    character other than "<" (its title tags have attributes, or no
    content) has no match, and its title is that of the h1 element, or
    "Untitled". *)
Theorem title_tag_plain_with_content (unescape : str -> str) (text : str) :
  (forall pre caps post,
      search title_re text = Some (pre, caps, post) ->
      exists o content c,
        text = pre ++ o ++ content ++ c ++ post
        /\ group 7 caps = content
        /\ ci_eqb (lit "<title>") o = true
        /\ content <> [] /\ forallb (neqc 60) content = true
        /\ ci_eqb (lit "</title>") c = true)
  /\ (title_open_with_text text = false ->
      search title_re text = None
      /\ extract_title unescape text = h1_fallback text
      /\ extract_title unescape text = first_of [h1_strategy text] Untitled).
Proof.
  split.
  - intros pre caps post S.
    destruct (search_sound _ _ _ _ _ S) as (E & M & _).
    destruct (title_inv _ _ _ M) as (o & content & c & E' & _ & G & Ho & Hne & Hc & Hcl).
    exists o, content, c. repeat split; auto.
    rewrite E at 1. now rewrite E'.
  - intros H. pose proof (title_search_none text H) as S.
    split; [exact S|]. unfold extract_title. rewrite S.
    split; [reflexivity|].
    unfold h1_fallback, h1_strategy.
    destruct (search h1_re text) as [[[? caps] ?]|]; reflexivity.
Qed.

Lemma title_tag_plain_with_content_witness :
  extract_title (fun s => s) (lit "<title lang=en>T</title><h1>H</h1>")
  = lit "H"
  /\ extract_title (fun s => s) (lit "<title></title>") = Untitled
  /\ exists o content c,
      lit "<p><TITLE>T</TITLE>" = lit "<p>" ++ o ++ content ++ c ++ []
      /\ content = lit "T".
Proof.
  split; [|split].
  - destruct (title_tag_plain_with_content (fun s => s)
                (lit "<title lang=en>T</title><h1>H</h1>")) as [_ H].
    destruct (H eq_refl) as (_ & E & _). rewrite E. reflexivity.
  - destruct (title_tag_plain_with_content (fun s => s)
                (lit "<title></title>")) as [_ H].
    destruct (H eq_refl) as (_ & E & _). rewrite E. reflexivity.
  - destruct (title_tag_plain_with_content (fun s => s)
                (lit "<p><TITLE>T</TITLE>")) as [H _].
    destruct (H (lit "<p>") (map (fun x => [x]) (lit "<TITLE>") ++ [lit "T"]
                   ++ map (fun x => [x]) (lit "</TITLE>")) [] eq_refl)
      as (o & content & c & E & G & _).
    exists o, content, c. split; [exact E|]. rewrite <- G. reflexivity.
Defined.

(** C8.  [normalize] is not idempotent: run on its own output it moves the
    headings down once more, the title heading of the first run among
    them, and inserts a second title heading. *)
Theorem normalize_not_idempotent :
  exists text, forall unescape : str -> str,
    let once := normalize unescape text None in
    let twice := normalize unescape once None in
    once = lit "<body>" ++ [10] ++ lit "<h1>A</h1>" ++ [10]
           ++ lit "<h2>A</h2></body>"
    /\ twice = lit "<body>" ++ [10] ++ lit "<h1>A</h1>" ++ [10; 10]
               ++ lit "<h2>A</h2>" ++ [10] ++ lit "<h3>A</h3></body>"
    /\ twice <> once
    /\ map level (heading_tags once) = [1; 1; 2; 2]
    /\ map level (heading_tags twice) = [1; 1; 2; 2; 3; 3].
Proof.
  exists (lit "<body><h1>A</h1></body>"). intros unescape. cbv zeta.
  assert (E1 : normalize unescape (lit "<body><h1>A</h1></body>") None =
               lit "<body>" ++ [10] ++ lit "<h1>A</h1>" ++ [10]
               ++ lit "<h2>A</h2></body>") by (vm_compute; reflexivity).
  rewrite E1.
  assert (E2 : normalize unescape
                 (lit "<body>" ++ [10] ++ lit "<h1>A</h1>" ++ [10]
                  ++ lit "<h2>A</h2></body>") None =
               lit "<body>" ++ [10] ++ lit "<h1>A</h1>" ++ [10; 10]
               ++ lit "<h2>A</h2>" ++ [10] ++ lit "<h3>A</h3></body>")
    by (vm_compute; reflexivity).
  rewrite E2. split; [reflexivity|]. split; [reflexivity|].
  split; [vm_compute; discriminate|].
  split; vm_compute; reflexivity.
Qed.

(** ** The body tag *)

Lemma occurs_ci_suffix pat p1 : forall p2,
  occurs_ci pat (p1 ++ p2) = false -> starts_ci pat p2 = false.
Proof.
  induction p1 as [|c p1 IH]; intros p2; cbn [app].
  - destruct p2 as [|x p2]; cbn [occurs_ci]; [auto|].
    intros H. now apply orb_false_elim in H as [H _].
  - cbn [occurs_ci]. intros H. apply orb_false_elim in H as [_ H]. auto.
Qed.

Lemma ci_lt x : ci 60 x = true -> x = 60.
Proof.
  unfold ci, range. cbn. rewrite !orb_false_r. apply N.eqb_eq.
Qed.

(** "<body" does not start in front of a "<" and reach over it. *)
Lemma body_no_straddle p2 z :
  p2 <> [] -> starts_ci (lit "<body") p2 = false ->
  starts_ci (lit "<body") (p2 ++ 60 :: z) = false.
Proof.
  change (lit "<body") with [60; 98; 111; 100; 121].
  assert (F1 : ci 98 60 = false) by reflexivity.
  assert (F2 : ci 111 60 = false) by reflexivity.
  assert (F3 : ci 100 60 = false) by reflexivity.
  assert (F4 : ci 121 60 = false) by reflexivity.
  intros Hne.
  destruct p2 as [|c1 [|c2 [|c3 [|c4 [|c5 p]]]]]; [congruence| | | | |];
    cbn [starts_ci app]; rewrite ?F1, ?F2, ?F3, ?F4, ?andb_false_r; auto.
Qed.

Lemma concat_singletons (o : str) : concat (map (fun x => [x]) o) = o.
Proof. induction o as [|x o IH]; [reflexivity|]. cbn. now rewrite IH. Qed.

Lemma body_match o att post :
  ci_eqb (lit "<body") o = true -> no_gt att ->
  exists caps,
    match_here body_re (o ++ att ++ 62 :: post) = Some (caps, post)
    /\ matched caps = o ++ att ++ [62].
Proof.
  intros Ho Ha. exists (map (fun x => [x]) o ++ [att; [62]]). split.
  - unfold body_re. rewrite lits_ci_ones.
    rewrite (ones_ci_match _ _ _ _ Ho), match_tag_end.
    rewrite span_app; auto. intros c r' E; inversion E; reflexivity.
  - unfold matched. rewrite concat_app, concat_singletons. cbn [concat].
    now rewrite app_nil_r.
Qed.

Lemma body_search pre o att post :
  ci_eqb (lit "<body") o = true -> no_gt att ->
  occurs_ci (lit "<body") pre = false ->
  exists caps,
    search body_re (pre ++ o ++ att ++ 62 :: post) = Some (pre, caps, post)
    /\ matched caps = o ++ att ++ [62].
Proof.
  intros Ho Ha Hpre. destruct (body_match o att post Ho Ha) as (caps & M & E).
  exists caps. split; [|exact E].
  apply search_complete; [exact M|].
  intros p1 p2 -> Hne. unfold body_re. rewrite lits_ci_ones.
  apply ones_ci_fail.
  destruct o as [|x o]; [discriminate|].
  assert (x = 60).
  { cbn [ci_eqb lit map list_ascii_of_string] in Ho.
    apply andb_prop in Ho as [Hx _]. now apply ci_lt. }
  subst x. cbn [app]. apply body_no_straddle; [exact Hne|].
  exact (occurs_ci_suffix _ _ _ Hpre).
Qed.

Lemma has_body_tag_app a b :
  has_body_tag b = true -> has_body_tag (a ++ b) = true.
Proof.
  intros H. induction a as [|c a IH]; [exact H|].
  cbn [app has_body_tag]. rewrite IH. apply orb_true_r.
Qed.

Lemma body_match_has_tag s caps rest :
  match_here body_re s = Some (caps, rest) -> has_body_tag s = true.
Proof.
  intros M. pose proof M as M'. rewrite body_re_tagged in M'.
  destruct (tagged_last _ _ _ _ M') as [m Em].
  destruct (match_here_sound _ _ _ _ M) as [E F].
  unfold body_re in F. rewrite lits_ci_ones in F.
  apply Forall2_app_inv_l in F. destruct F as (c1 & c2 & F1 & _ & Ec).
  destruct (ones_ci_sound _ _ F1) as [Ho _].
  assert (St : starts_ci (lit "<body") s = true).
  { rewrite E, Ec. unfold matched. rewrite concat_app, <- app_assoc.
    now apply starts_ci_app. }
  assert (Gt : existsb (eqc 62) s = true).
  { apply existsb_exists. exists 62. split; [|reflexivity].
    rewrite E, Em, !in_app_iff. left; right; left; reflexivity. }
  destruct s as [|c s]; [discriminate St|].
  cbn [has_body_tag]. now rewrite St, Gt.
Qed.

Lemma body_search_none s : has_body_tag s = false -> search body_re s = None.
Proof.
  intros H. apply search_none. intros p1 p2 ->.
  destruct (match_here body_re p2) as [[caps rest]|] eqn:M; [|reflexivity].
  apply body_match_has_tag in M.
  rewrite (has_body_tag_app p1 p2 M) in H. discriminate.
Qed.

Lemma starts_ci_split pat : forall s,
  starts_ci pat s = true -> exists o z, s = o ++ z /\ ci_eqb pat o = true.
Proof.
  induction pat as [|c pat IH]; intros s; cbn [starts_ci].
  - intros _. exists [], s. split; reflexivity.
  - destruct s as [|x s]; [discriminate|].
    intros H. apply andb_prop in H as [Hx H].
    destruct (IH s H) as (o & z & -> & Ho).
    exists (x :: o), z. split; [reflexivity|]. cbn [ci_eqb]. now rewrite Hx.
Qed.

Lemma ci_eqb_not_in pat x : forall o,
  ci_eqb pat o = true -> forallb (fun c => negb (ci c x)) pat = true ->
  ~ In x o.
Proof.
  induction pat as [|c pat IH]; intros [|y o]; cbn [ci_eqb forallb];
    try discriminate; [tauto|].
  intros H F. apply andb_prop in H as [Hy H]. apply andb_prop in F as [Fc F].
  intros [->|Hin]; [|exact (IH o H F Hin)].
  rewrite Hy in Fc. discriminate.
Qed.

Lemma body_match_here s :
  starts_ci (lit "<body") s = true -> existsb (eqc 62) s = true ->
  match_here body_re s <> None.
Proof.
  intros St Gt. destruct (starts_ci_split _ _ St) as (o & z & -> & Ho).
  apply existsb_exists in Gt as (x & Hin & Hx).
  apply N.eqb_eq in Hx. subst x. apply in_app_or in Hin as [Hin|Hin].
  - exfalso. revert Hin. apply (ci_eqb_not_in (lit "<body")); auto.
  - unfold body_re. rewrite lits_ci_ones, (ones_ci_match _ _ _ _ Ho).
    pose proof (tag_end_some z Hin) as T. unfold tagged in T. cbn [app] in T.
    destruct (match_here [Star (neqc 62); One (eqc 62)] z) as [[? ?]|];
      [discriminate|congruence].
Qed.

Lemma has_body_tag_split s : has_body_tag s = true ->
  exists p1 p2,
    s = p1 ++ p2 /\ starts_ci (lit "<body") p2 = true
    /\ existsb (eqc 62) p2 = true.
Proof.
  induction s as [|c s IH]; cbn [has_body_tag]; [discriminate|].
  rewrite orb_true_iff. intros [H|H].
  - apply andb_prop in H as [St Gt]. exists [], (c :: s). auto.
  - destruct (IH H) as (p1 & p2 & -> & St & Gt).
    exists (c :: p1), p2. auto.
Qed.

(** [has_body_tag] says exactly that the body pattern has a match. *)
Lemma body_search_iff s : has_body_tag s = false <-> search body_re s = None.
Proof.
  split; [apply body_search_none|].
  intros S. destruct (has_body_tag s) eqn:E; [|reflexivity].
  destruct (has_body_tag_split s E) as (p1 & p2 & -> & St & Gt).
  exfalso. revert S. apply search_some_of_suffix. now apply body_match_here.
Qed.

(** C4.  The document the title heading is put into is the shifted text.
    When it holds a body tag ("<body", case apart, text without ">", and
    ">") and "<body" does not occur in front of that tag, a newline and the
    built element (the level-1 opening tag, the escaped title, the level-1
    closing tag, a newline) follow that tag's ">", with the rest of the
    document behind them; when it holds no body tag, the built element is
    put in front of the document. *)
Theorem title_inserted_after_body (unescape : str -> str) (text : str)
    (title_override : option str) :
  let doc := shift_headings text in
  let built :=
    lit "<h1>" ++ html_escape (resolve_title unescape text title_override)
    ++ lit "</h1>" ++ [10] in
  (forall pre o att post,
      doc = pre ++ o ++ att ++ [62] ++ post ->
      ci_eqb (lit "<body") o = true ->
      forallb (neqc 62) att = true ->
      occurs_ci (lit "<body") pre = false ->
      normalize unescape text title_override =
      pre ++ o ++ att ++ [62] ++ [10] ++ built ++ post)
  /\ (has_body_tag doc = false ->
      normalize unescape text title_override = built ++ doc).
Proof.
  cbv zeta. unfold normalize, insert_title. split.
  - intros pre o att post E Ho Ha Hpre.
    destruct (body_search pre o att post Ho Ha Hpre) as (caps & S & Em).
    rewrite E. cbn [app] in S |- *. rewrite S, Em. unfold title_html.
    rewrite <- !app_assoc. reflexivity.
  - intros H. rewrite (body_search_none _ H). unfold title_html.
    rewrite <- !app_assoc. reflexivity.
Qed.

Lemma title_inserted_after_body_witness :
  normalize (fun s => s) (lit "<html><BODY class=x><h1>Hi</h1></body>") None
  = lit "<html><BODY class=x>" ++ [10] ++ lit "<h1>Hi</h1>" ++ [10]
    ++ lit "<h2>Hi</h2></body>"
  /\ normalize (fun s => s) (lit "<p>No body</p>") None
     = lit "<h1>Untitled</h1>" ++ [10] ++ lit "<p>No body</p>".
Proof.
  split.
  - destruct (title_inserted_after_body (fun s => s)
                (lit "<html><BODY class=x><h1>Hi</h1></body>") None)
      as [H _].
    exact (H (lit "<html>") (lit "<BODY") (lit " class=x")
             (lit "<h2>Hi</h2></body>") eq_refl eq_refl eq_refl eq_refl).
  - destruct (title_inserted_after_body (fun s => s)
                (lit "<p>No body</p>") None) as [_ H].
    exact (H eq_refl).
Defined.

(** The body tag is looked for in the shifted text: attribute text of a
    closing heading tag is dropped by the shift, a body tag inside it with
    it. *)
Example body_tag_in_closing_heading (unescape : str -> str) :
  has_body_tag (lit "</h1 <body>") = true
  /\ shift_headings (lit "</h1 <body>") = lit "</h2>"
  /\ normalize unescape (lit "</h1 <body>") None
     = lit "<h1>Untitled</h1>" ++ [10] ++ lit "</h2>".
Proof. repeat split; reflexivity. Qed.

(** ** The scenarios of the spec *)

Example scenario_title_and_body (unescape : str -> str) :
  unescape (lit "My Article - BigSite") = lit "My Article - BigSite" ->
  normalize unescape
    (lit "<html><title>My Article - BigSite</title><body><h1>Hello</h1></body></html>")
    None
  = lit "<html><title>My Article - BigSite</title><body>" ++ [10]
    ++ lit "<h1>My Article</h1>" ++ [10]
    ++ lit "<h2>Hello</h2></body></html>".
Proof.
  intros U. unfold normalize, resolve_title, extract_title.
  change (search title_re _)
    with (Some (lit "<html>",
                map (fun x => [x]) (lit "<title>")
                ++ [lit "My Article - BigSite"]
                ++ map (fun x => [x]) (lit "</title>"),
                lit "<body><h1>Hello</h1></body></html>")).
  cbv iota beta. change (group 7 _) with (lit "My Article - BigSite").
  rewrite U. reflexivity.
Qed.

Example scenario_h1_only (unescape : str -> str) :
  normalize unescape (lit "<html><body><h1>Only Heading</h1></body></html>")
    None
  = lit "<html><body>" ++ [10] ++ lit "<h1>Only Heading</h1>" ++ [10]
    ++ lit "<h2>Only Heading</h2></body></html>".
Proof. reflexivity. Qed.

Example scenario_nothing (unescape : str -> str) :
  normalize unescape (lit "<p>No headings, no title, no body tag</p>") None
  = lit "<h1>Untitled</h1>" ++ [10]
    ++ lit "<p>No headings, no title, no body tag</p>".
Proof. reflexivity. Qed.

Example scenario_override (unescape : str -> str) (text : str) :
  resolve_title unescape text (Some (lit "Custom Name - Ignored"))
  = lit "Custom Name".
Proof. reflexivity. Qed.

Example scenario_h6 :
  shift_headings (lit "<h6>Deep</h6>") = lit "<h6>Deep</h6>".
Proof. reflexivity. Qed.

Lemma lstrip_spec s :
  exists u, s = u ++ lstrip s /\ forallb isspace u = true
            /\ match lstrip s with c :: _ => isspace c = false | [] => True end.
Proof.
  induction s as [|c s IH]; cbn [lstrip].
  - exists []. auto.
  - destruct (isspace c) eqn:E.
    + destruct IH as (u & Es & Hu & Hh). exists (c :: u).
      cbn [app forallb]. rewrite E, Hu. split; [now f_equal|]. auto.
    + exists []. auto.
Qed.

Lemma lstrip_ws_app u v : forallb isspace u = true -> lstrip (u ++ v) = lstrip v.
Proof.
  induction u as [|c u IH]; [reflexivity|]. cbn [forallb app lstrip].
  intros H. apply andb_prop in H as [-> H]. auto.
Qed.

Lemma rstrip_app_ws v u : forallb isspace u = true -> rstrip (v ++ u) = rstrip v.
Proof.
  intros H. unfold rstrip. rewrite rev_app_distr, lstrip_ws_app; [reflexivity|].
  rewrite forallb_forall in *. intros x Hx. apply H. now apply in_rev.
Qed.

Lemma rstrip_spec s :
  exists u, s = rstrip s ++ u /\ forallb isspace u = true
            /\ (rstrip s = [] \/ exists q z, rstrip s = q ++ [z] /\ isspace z = false).
Proof.
  unfold rstrip. destruct (lstrip_spec (rev s)) as (u & E & Hu & Hh).
  exists (rev u). split; [|split].
  - rewrite <- rev_app_distr, <- E. now rewrite rev_involutive.
  - rewrite forallb_forall in *. intros x Hx. apply Hu. now apply in_rev.
  - destruct (lstrip (rev s)) as [|z q]; [left; reflexivity|].
    right. exists (rev q), z. split; [reflexivity|assumption].
Qed.

Lemma rstrip_head c s : isspace c = false -> exists t, rstrip (c :: s) = c :: t.
Proof.
  intros Hc. destruct (rstrip_spec (c :: s)) as (u & E & Hu & _).
  destruct (rstrip (c :: s)) as [|c' t].
  - cbn [app] in E. subst u. cbn [forallb] in Hu. rewrite Hc in Hu. discriminate.
  - inversion E; subst. eauto.
Qed.

Lemma trimmed_strip s : trimmed (strip s) = true.
Proof.
  unfold strip. destruct (lstrip_spec s) as (_ & _ & _ & Hh).
  destruct (lstrip s) as [|c y]; [reflexivity|].
  destruct (rstrip_head c y Hh) as (t & Et).
  destruct (rstrip_spec (c :: y)) as (_ & _ & _ & [En|(q & z & Eq & Hz)]);
    [congruence|].
  rewrite Et. unfold trimmed. rewrite Hh. cbn [negb andb].
  rewrite <- Et, Eq, last_last, Hz. reflexivity.
Qed.

Lemma strip_idem s : strip (strip s) = strip s.
Proof. apply strip_trimmed, trimmed_strip. Qed.

(** ** More on [clean_title] *)

Lemma sep_occurs_prefix x y : sep_occurs x = true -> sep_occurs (x ++ y) = true.
Proof.
  induction x as [|c x IH]; cbn [sep_occurs app]; [discriminate|].
  rewrite orb_true_iff. intros [H|H].
  - destruct x as [|w x]; [now rewrite andb_false_r in H|].
    cbn [app]. now rewrite H.
  - rewrite (IH H). apply orb_true_r.
Qed.

Lemma sep_occurs_strip x : sep_occurs x = false -> sep_occurs (strip x) = false.
Proof.
  intros H. unfold strip.
  destruct (lstrip_spec x) as (u & E & _).
  destruct (rstrip_spec (lstrip x)) as (v & E' & _).
  destruct (sep_occurs (rstrip (lstrip x))) eqn:S; [|reflexivity].
  rewrite E, E' in H.
  rewrite (sep_occurs_app u _ (sep_occurs_prefix _ v S)) in H. discriminate.
Qed.

(** The text in front of the first separator holds no separator. *)
Lemma split_head_no_sep s : sep_occurs (split_head sep_re s) = false.
Proof.
  unfold split_head.
  destruct (search sep_re s) as [[[pre caps] rest]|] eqn:S.
  - destruct (search_sound _ _ _ _ _ S) as (_ & _ & Hfirst).
    destruct (sep_occurs pre) eqn:E; [|reflexivity].
    destruct (sep_occurs_split pre E) as (p1 & c & w & r & Ep & Hc & Hw).
    specialize (Hfirst p1 (c :: w :: r) Ep ltac:(discriminate)).
    cbn [app] in Hfirst. exfalso. revert Hfirst. now apply sep_match_here.
  - now apply sep_search_iff.
Qed.

Lemma clean_title_id s :
  sep_occurs s = false -> trimmed s = true -> s <> [] -> clean_title s = s.
Proof.
  intros H T Hne. unfold clean_title, split_head.
  rewrite (sep_search_none s H), (strip_trimmed s T).
  destruct s; [congruence|reflexivity].
Qed.

Lemma clean_title_trimmed s : trimmed (clean_title s) = true.
Proof.
  unfold clean_title. destruct (truthy (strip (split_head sep_re s)));
    [apply trimmed_strip|reflexivity].
Qed.

Lemma clean_title_no_sep s : sep_occurs (clean_title s) = false.
Proof.
  unfold clean_title. destruct (truthy (strip (split_head sep_re s)));
    [|reflexivity].
  apply sep_occurs_strip, split_head_no_sep.
Qed.

(** X1.  What [clean_title] returns is never empty, neither begins nor ends
    with whitespace and holds no separator; cleaning it again changes
    nothing. *)
Theorem clean_title_idempotent (s : str) :
  clean_title s <> []
  /\ trimmed (clean_title s) = true
  /\ sep_occurs (clean_title s) = false
  /\ clean_title (clean_title s) = clean_title s.
Proof.
  split; [apply clean_title_nonempty|].
  split; [apply clean_title_trimmed|].
  split; [apply clean_title_no_sep|].
  apply clean_title_id;
    [apply clean_title_no_sep|apply clean_title_trimmed|apply clean_title_nonempty].
Qed.

(** X2.  The title [normalize] puts into the heading never begins or ends
    with whitespace, whatever the document, the override and the entity
    decoding are. *)
Theorem resolve_title_trimmed (unescape : str -> str) (text : str)
    (title_override : option str) :
  trimmed (resolve_title unescape text title_override) = true.
Proof.
  assert (H1 : trimmed (h1_fallback text) = true).
  { unfold h1_fallback. destruct (search h1_re text) as [[[? caps] ?]|];
      [apply trimmed_strip|reflexivity]. }
  assert (E : trimmed (extract_title unescape text) = true).
  { unfold extract_title. destruct (search title_re text) as [[[? caps] ?]|];
      [|exact H1].
    cbv zeta. destruct (truthy _ && negb _); [apply clean_title_trimmed|exact H1]. }
  unfold resolve_title. destruct title_override as [o|]; [|exact E].
  destruct (truthy o); [apply clean_title_trimmed|exact E].
Qed.

Lemma lstrip_app_ws x u : forallb isspace u = true ->
  exists u', forallb isspace u' = true /\ lstrip (x ++ u) = lstrip x ++ u'.
Proof.
  intros Hu. induction x as [|c x IH]; cbn [app lstrip].
  - exists []. split; [reflexivity|].
    rewrite <- (app_nil_r u), lstrip_ws_app by assumption. reflexivity.
  - destruct (isspace c); [exact IH|]. exists u. auto.
Qed.

Lemma strip_app_ws x u : forallb isspace u = true -> strip (x ++ u) = strip x.
Proof.
  intros Hu. unfold strip.
  destruct (lstrip_app_ws x u Hu) as (u' & Hu' & ->).
  now apply rstrip_app_ws.
Qed.

Lemma sep_inv s caps rest :
  match_here sep_re s = Some (caps, rest) ->
  exists ws c w r,
    s = ws ++ c :: w :: r /\ forallb isspace ws = true
    /\ sep_char c = true /\ isspace w = true.
Proof.
  intros M. destruct (match_here_sound _ _ _ _ M) as [E F].
  unfold sep_re in F.
  inversion F as [|? ws ? l0 H0 F0]; subst.
  inversion F0 as [|? c1 ? l1 H1 F1]; subst.
  inversion F1 as [|? ws2 ? l2 H2 F2]; subst.
  inversion F2; subst. cbn [item_ok] in *.
  destruct H1 as (c & -> & Hc). destruct H2 as [Hne Hws].
  destruct ws2 as [|w ws2]; [congruence|].
  cbn [forallb] in Hws. apply andb_prop in Hws as [Hw _].
  exists ws, c, w, (ws2 ++ rest). repeat split; auto.
  unfold matched. cbn [concat app]. rewrite app_nil_r, <- app_assoc.
  reflexivity.
Qed.

Lemma sep_occurs_snoc x c :
  isspace c = false -> sep_occurs (x ++ [c]) = sep_occurs x.
Proof.
  intros Hc. induction x as [|c0 x IH]; cbn [app sep_occurs].
  - now rewrite andb_false_r.
  - rewrite IH. destruct x; cbn [app]; [|reflexivity].
    now rewrite Hc.
Qed.

Lemma sep_match_ws u c w b :
  forallb isspace u = true -> sep_char c = true -> isspace w = true ->
  match_here sep_re (u ++ c :: w :: b) <> None.
Proof.
  intros Hu Hc Hw. unfold sep_re. rewrite match_here_Star, greedy_excl.
  - rewrite span_app; auto.
    + cbn [fst snd]. pose proof (sep_match_here c w b Hc Hw) as M.
      unfold sep_re in M. rewrite match_here_Star in M. cbn [greedy] in M.
      rewrite (sep_not_space c Hc) in M.
      destruct (match_here [One sep_char; Plus isspace] (c :: w :: b))
        as [[? ?]|]; [discriminate|]. now cbn in M.
    + intros c0 r' E. inversion E; subst. now apply sep_not_space.
  - intros c0 z H0. rewrite match_here_One.
    destruct (sep_char c0) eqn:S; [|reflexivity].
    rewrite (sep_not_space c0 S) in H0. discriminate.
Qed.

Lemma nonws_app a b : nonws (a ++ b) = (nonws a + nonws b)%nat.
Proof. unfold nonws. now rewrite filter_app, length_app. Qed.

Lemma nonws_ws u : forallb isspace u = true -> nonws u = 0%nat.
Proof.
  unfold nonws. induction u as [|c u IH]; [reflexivity|].
  cbn [forallb filter]. intros H. apply andb_prop in H as [-> H]. auto.
Qed.

Lemma nonws_cons c l :
  nonws (c :: l) = ((if isspace c then 0 else 1) + nonws l)%nat.
Proof. unfold nonws. cbn [filter]. destruct (isspace c); reflexivity. Qed.

(** The first separator decides: the search stops in front of the
    whitespace in front of it. *)
Lemma sep_search_first a c w b :
  sep_occurs a = false -> sep_char c = true -> isspace w = true ->
  exists caps rest,
    search sep_re (a ++ c :: w :: b) = Some (rstrip a, caps, rest).
Proof.
  intros Ha Hc Hw.
  destruct (rstrip_spec a) as (u & Ea & Hu & Hlast).
  destruct (match_here sep_re (u ++ c :: w :: b)) as [[caps rest]|] eqn:M;
    [|now destruct (sep_match_ws u c w b Hu Hc Hw)].
  exists caps, rest. rewrite Ea at 1. rewrite <- app_assoc.
  apply search_complete; [exact M|].
  intros p1 p2 Ep Hne.
  destruct (match_here sep_re (p2 ++ u ++ c :: w :: b)) as [[caps' rest']|] eqn:M';
    [|reflexivity].
  exfalso.
  destruct (sep_inv _ _ _ M') as (ws & c' & w' & r & E & Hws & Hc' & Hw').
  destruct Hlast as [En|(q & z & Eq & Hz)].
  { rewrite En in Ep. symmetry in Ep. apply app_eq_nil in Ep. tauto. }
  assert (Ez : exists p2', p2 = p2' ++ [z]).
  { destruct (exists_last Hne) as (p2' & z' & ->).
    rewrite Eq, app_assoc in Ep. apply app_inj_tail in Ep as [_ ->]. eauto. }
  destruct Ez as (p2' & ->).
  assert (Hs : sep_occurs ((p2' ++ [z]) ++ u ++ [c]) = false).
  { rewrite app_assoc, sep_occurs_snoc by now apply sep_not_space.
    destruct (sep_occurs ((p2' ++ [z]) ++ u)) eqn:S; [|reflexivity].
    rewrite Ea, Ep, <- app_assoc in Ha.
    rewrite (sep_occurs_app p1 _ S) in Ha. discriminate. }
  assert (E2 : ((p2' ++ [z]) ++ u ++ [c]) ++ w :: b = (ws ++ [c'; w']) ++ r).
  { rewrite <- !app_assoc. cbn [app]. rewrite <- E.
    rewrite <- !app_assoc. reflexivity. }
  apply app_eq_app in E2 as (l & [[E3 _]|[E3 _]]).
  - rewrite E3, <- app_assoc in Hs. cbn [app] in Hs.
    rewrite (sep_occurs_app ws _) in Hs; [discriminate|].
    cbn [sep_occurs]. now rewrite Hc', Hw'.
  - apply (f_equal nonws) in E3.
    rewrite !nonws_app, !nonws_cons in E3.
    rewrite (nonws_ws ws Hws), (nonws_ws u Hu) in E3.
    rewrite Hz, Hw', (sep_not_space c Hc), (sep_not_space c' Hc') in E3.
    cbn in E3. lia.
Qed.

(** X3.  When a string holds a separator, [clean_title] returns what is in
    front of the first one (a separator character with whitespace behind
    it), trimmed, and "Untitled" when that is empty. *)
Theorem clean_title_cuts_at_separator (a : str) (c w : char) (b : str) :
  sep_occurs a = false -> sep_char c = true -> isspace w = true ->
  clean_title (a ++ c :: w :: b) = (if truthy (strip a) then strip a else Untitled).
Proof.
  intros Ha Hc Hw.
  destruct (sep_search_first a c w b Ha Hc Hw) as (caps & rest & S).
  unfold clean_title, split_head. rewrite S.
  destruct (rstrip_spec a) as (u & Ea & Hu & _).
  assert (E : strip (rstrip a) = strip a).
  { rewrite Ea at 2. now rewrite strip_app_ws. }
  now rewrite E.
Qed.

Lemma clean_title_cuts_at_separator_witness :
  clean_title (lit "My Article - BigSite | News") = lit "My Article"
  /\ clean_title (lit " - BigSite") = Untitled.
Proof.
  split.
  - exact (clean_title_cuts_at_separator (lit "My Article ") 45 32
             (lit "BigSite | News") eq_refl eq_refl eq_refl).
  - exact (clean_title_cuts_at_separator (lit " ") 45 32
             (lit "BigSite") eq_refl eq_refl eq_refl).
Defined.

(** ** [html.escape] *)

Lemma html_escape_cons c s :
  html_escape (c :: s) = html_escape [c] ++ html_escape s.
Proof. cbn [html_escape]. now rewrite app_nil_r. Qed.

Lemma html_escape_one c :
  (c = 38 /\ html_escape [c] = lit "&amp;")
  \/ (c = 60 /\ html_escape [c] = lit "&lt;")
  \/ (c = 62 /\ html_escape [c] = lit "&gt;")
  \/ (c = 34 /\ html_escape [c] = lit "&quot;")
  \/ (c = 39 /\ html_escape [c] = lit "&#x27;")
  \/ (c <> 38 /\ c <> 60 /\ c <> 62 /\ c <> 34 /\ c <> 39
      /\ html_escape [c] = [c]).
Proof.
  cbn [html_escape]. rewrite app_nil_r.
  destruct (N.eqb_spec c 38); [left; split; [assumption|reflexivity]|].
  destruct (N.eqb_spec c 60);
    [right; left; split; [assumption|reflexivity]|].
  destruct (N.eqb_spec c 62);
    [do 2 right; left; split; [assumption|reflexivity]|].
  destruct (N.eqb_spec c 34);
    [do 3 right; left; split; [assumption|reflexivity]|].
  destruct (N.eqb_spec c 39);
    [do 4 right; left; split; [assumption|reflexivity]|].
  do 5 right. repeat split; assumption.
Qed.

(** X4.  The escaped text holds none of the characters "<", ">", the double
    and the single quote, so a title cannot open or close a tag or an
    attribute value in the output. *)
Theorem html_escape_safe (t : str) (x : char) :
  In x (html_escape t) -> x <> 60 /\ x <> 62 /\ x <> 34 /\ x <> 39.
Proof.
  induction t as [|c t IH]; [intros []|].
  rewrite html_escape_cons, in_app_iff. intros [H|H]; [|auto].
  destruct (html_escape_one c)
    as [[_ E]|[[_ E]|[[_ E]|[[_ E]|[[_ E]|(H1 & H2 & H3 & H4 & H5 & E)]]]]];
    rewrite E in H; cbn in H;
    repeat (destruct H as [<-|H]; [repeat split; congruence|]);
    destruct H.
Qed.

Lemma html_escape_safe_witness :
  html_escape (lit "a<b>&'c'") = lit "a&lt;b&gt;&amp;&#x27;c&#x27;"
  /\ 59 <> 60.
Proof.
  split; [reflexivity|].
  assert (H : In 59 (html_escape (lit "a<b>&'c'"))).
  { vm_compute. do 4 right. left. reflexivity. }
  exact (proj1 (html_escape_safe _ _ H)).
Defined.

(** X5.  Escaping loses nothing: different texts have different escaped
    texts. *)
Theorem html_escape_injective (a b : str) :
  html_escape a = html_escape b -> a = b.
Proof.
  revert b. induction a as [|c a IH]; intros [|d b].
  - reflexivity.
  - rewrite html_escape_cons.
    destruct (html_escape_one d)
      as [[_ E]|[[_ E]|[[_ E]|[[_ E]|[[_ E]|(_ & _ & _ & _ & _ & E)]]]]];
      rewrite E; discriminate.
  - rewrite html_escape_cons.
    destruct (html_escape_one c)
      as [[_ E]|[[_ E]|[[_ E]|[[_ E]|[[_ E]|(_ & _ & _ & _ & _ & E)]]]]];
      rewrite E; discriminate.
  - rewrite (html_escape_cons c), (html_escape_cons d).
    destruct (html_escape_one c)
      as [[-> E]|[[-> E]|[[-> E]|[[-> E]|[[-> E]|(C1 & C2 & C3 & C4 & C5 & E)]]]]];
      rewrite E;
      destruct (html_escape_one d)
        as [[-> E']|[[-> E']|[[-> E']|[[-> E']|[[-> E']|(D1 & D2 & D3 & D4 & D5 & E')]]]]];
      rewrite E'; cbn [lit map list_ascii_of_string app ch N_of_ascii];
      intros H; inversion H; subst; try congruence;
      f_equal; apply IH; assumption.
Qed.

Lemma html_escape_injective_witness : lit "a&b" = lit "a&b".
Proof. exact (html_escape_injective (lit "a&b") (lit "a&b") eq_refl). Defined.

(** ** More on [shift_headings] *)

Lemma finditer_shift_iter n text :
  finditer heading_re (Nat.iter n shift_headings text) =
  map (Nat.iter n shift_seg) (finditer heading_re text).
Proof.
  induction n as [|n IH].
  - cbn. now rewrite map_id.
  - change (Nat.iter (S n) shift_headings text)
      with (shift_headings (Nat.iter n shift_headings text)).
    rewrite finditer_shift, IH, map_map. reflexivity.
Qed.

Lemma demote_demote_by n t :
  demote (demote_by (S n) t) = demote_by (S (S n)) t.
Proof.
  unfold demote, demote_by. cbn [closing level attrs]. f_equal.
  - lia.
  - destruct (closing t); reflexivity.
Qed.

Lemma shift_caps_fixed caps s rest :
  match_here heading_re s = Some (caps, rest) ->
  shift_caps (Nat.iter 5 shift_caps caps) = Nat.iter 5 shift_caps caps.
Proof.
  intros M.
  destruct (heading_inv _ _ _ M) as (slash & hc & d & att & -> & Hs & _ & Hd & _).
  assert (D : d = 49 \/ d = 50 \/ d = 51 \/ d = 52 \/ d = 53 \/ d = 54) by lia.
  destruct Hs as [->| ->];
    destruct D as [->|[->|[->|[->|[->| ->]]]]]; reflexivity.
Qed.

(** X6.  Shifting [n] times, [n] above 0, moves every heading tag to the
    level min(level + n, 6) and keeps their number and order; after five
    shifts every heading is at level 6 and a further shift changes nothing
    in the text. *)
Theorem shift_headings_iterated (text : str) :
  (forall n,
      heading_tags (Nat.iter (S n) shift_headings text) =
      map (demote_by (S n)) (heading_tags text))
  /\ Forall (fun t => level t = 6)
            (heading_tags (Nat.iter 5 shift_headings text))
  /\ shift_headings (Nat.iter 5 shift_headings text) =
     Nat.iter 5 shift_headings text.
Proof.
  assert (A : forall n,
             heading_tags (Nat.iter (S n) shift_headings text) =
             map (demote_by (S n)) (heading_tags text)).
  { induction n as [|n IH].
    - change (Nat.iter 1 shift_headings text) with (shift_headings text).
      rewrite heading_tags_shift. apply map_ext.
      intros t. unfold demote, demote_by. reflexivity.
    - change (Nat.iter (S (S n)) shift_headings text)
        with (shift_headings (Nat.iter (S n) shift_headings text)).
      rewrite heading_tags_shift, IH, map_map. apply map_ext.
      apply demote_demote_by. }
  split; [exact A|]. split.
  - rewrite (A 4%nat). apply Forall_forall. intros t Ht.
    apply in_map_iff in Ht as (t0 & <- & Ht0).
    apply heading_tags_level in Ht0. unfold demote_by; cbn [level]. lia.
  - unfold shift_headings at 1. unfold re_sub.
    rewrite <- (finditer_src heading_re (Nat.iter 5 shift_headings text))
      at 2 by reflexivity.
    rewrite finditer_shift_iter, !map_map. f_equal.
    apply map_ext_in. intros [t|caps] Hin.
    + reflexivity.
    + assert (E : Nat.iter 5 shift_seg (Hit caps) =
                  Hit (Nat.iter 5 shift_caps caps)) by reflexivity.
      rewrite E. cbn [seg_sub seg_src]. rewrite shift_repl_caps. f_equal.
      assert (H : In caps (hits (finditer heading_re text))).
      { unfold hits. apply in_flat_map. exists (Hit caps).
        split; [assumption|left; reflexivity]. }
      destruct (finditer_hits_valid _ _ _ heading_consumes H) as (z & M).
      exact (shift_caps_fixed _ _ _ M).
Qed.

Lemma shift_repl_dropped s caps rest :
  match_here heading_re s = Some (caps, rest) ->
  (length (shift_repl caps)
   + (if closing (tag_of caps) then length (attrs (tag_of caps)) else 0)
   = length (matched caps))%nat.
Proof.
  intros M.
  destruct (heading_inv _ _ _ M) as (slash & hc & d & att & -> & Hs & _ & _ & _ & _).
  unfold shift_repl, matched, tag_of, group, str_of_level.
  cbn [nth concat closing attrs].
  change (lit "<") with [60]. change (lit "h") with [104].
  change (lit ">") with [62].
  rewrite !length_app. cbn [length].
  destruct Hs as [->| ->]; cbn [truthy negb length]; lia.
Qed.

Lemma dropped_none (l : list HeadingTag) :
  list_sum (map (fun t => if closing t then length (attrs t) else 0%nat) l)
  = 0%nat
  <-> Forall (fun t => closing t = true -> attrs t = []) l.
Proof.
  set (f := fun t => if closing t then length (attrs t) else 0%nat).
  induction l as [|t l IH].
  - split; [constructor|reflexivity].
  - change (list_sum (map f (t :: l))) with (f t + list_sum (map f l))%nat.
    split.
    + intros H. apply Nat.eq_add_0 in H as [H1 H2]. constructor.
      * intros C. unfold f in H1. rewrite C in H1.
        now apply length_zero_iff_nil.
      * now apply IH.
    + intros F. inversion F as [|? ? Ht F']; subst.
      rewrite (proj2 IH F'). unfold f.
      destruct (closing t); [|reflexivity].
      now rewrite (Ht eq_refl).
Qed.

(** X7.  [shift_headings] makes the text shorter by the attribute text of
    its closing heading tags, character for character, and changes its
    length in no other way: the text is never longer afterwards, and it
    keeps its length exactly when no closing heading tag carries attribute
    text. *)
Theorem shift_headings_length (text : str) :
  (length (shift_headings text) + dropped_attrs text = length text)%nat
  /\ (length (shift_headings text) <= length text)%nat
  /\ (length (shift_headings text) = length text
      <-> Forall (fun t => closing t = true -> attrs t = [])
                 (heading_tags text)).
Proof.
  assert (E : (length (shift_headings text) + dropped_attrs text
               = length text)%nat).
  { unfold shift_headings, re_sub, dropped_attrs, heading_tags.
    apply (finditer_ind heading_re
             (fun s l =>
                (length (concat (map (seg_sub shift_repl) l))
                 + list_sum (map (fun t => if closing t
                                           then length (attrs t) else 0%nat)
                                 (map tag_of (hits l)))
                 = length s)%nat));
      [reflexivity| |].
    - intros s _. cbn [map concat seg_sub hits flat_map app].
      rewrite app_nil_r. change (list_sum []) with 0%nat. lia.
    - intros s pre caps rest S IH.
      destruct (search_sound _ _ _ _ _ S) as (Es & M & _).
      pose proof (shift_repl_dropped _ _ _ M) as L.
      pose proof (f_equal (@length N) Es) as Ls.
      cbn [map concat seg_sub hits flat_map app].
      match goal with
      | |- context [list_sum (?a :: ?l)] =>
          change (list_sum (a :: l)) with (a + list_sum l)%nat
      end.
      cbv beta. unfold hits in IH. rewrite Ls, !length_app. lia. }
  split; [exact E|]. split; [lia|].
  unfold dropped_attrs in E. rewrite <- dropped_none. lia.
Qed.

Lemma shift_headings_length_witness :
  length (shift_headings (lit "<H1 id=a>T</H1><p>x</p>")) = 23%nat
  /\ length (shift_headings (lit "a</h1 x>b")) <> length (lit "a</h1 x>b").
Proof.
  destruct (shift_headings_length (lit "<H1 id=a>T</H1><p>x</p>"))
    as (_ & _ & H).
  destruct (shift_headings_length (lit "a</h1 x>b")) as (_ & _ & H').
  split.
  - rewrite (proj2 H); [reflexivity|].
    vm_compute. constructor; [discriminate|].
    constructor; [reflexivity|constructor].
  - intros E. apply (proj1 H') in E. vm_compute in E.
    inversion E as [|? ? Ht _]. discriminate (Ht eq_refl).
Defined.

(** ** More on [normalize] *)

(** X8.  [normalize] removes nothing: its output is the shifted text with
    the title element put in, either in front of it or, behind a newline,
    right behind a ">" of it. *)
Theorem normalize_splices_title (unescape : str -> str) (text : str)
    (title_override : option str) :
  exists a b nl,
    shift_headings text = a ++ b
    /\ normalize unescape text title_override =
       a ++ nl ++ lit "<h1>"
       ++ html_escape (resolve_title unescape text title_override)
       ++ lit "</h1>" ++ [10] ++ b
    /\ ((a = [] /\ nl = []) \/ (nl = [10] /\ exists a', a = a' ++ [62])).
Proof.
  unfold normalize, insert_title, title_html.
  destruct (search body_re (shift_headings text)) as [[[pre caps] rest]|] eqn:S.
  - destruct (search_sound _ _ _ _ _ S) as (E & M & _).
    rewrite body_re_tagged in M. destruct (tagged_last _ _ _ _ M) as [m Em].
    exists (pre ++ matched caps), rest, [10]. split; [|split].
    + now rewrite <- app_assoc.
    + rewrite <- !app_assoc. reflexivity.
    + right. split; [reflexivity|]. exists (pre ++ m).
      now rewrite Em, app_assoc.
  - exists [], (shift_headings text), []. split; [reflexivity|]. split.
    + cbn [app]. rewrite <- !app_assoc. reflexivity.
    + left. auto.
Qed.

(** ** The title from the h1 element *)








(** ** The title from the title element *)

Lemma title_no_straddle p2 z :
  p2 <> [] -> starts_ci (lit "<title>") p2 = false ->
  starts_ci (lit "<title>") (p2 ++ 60 :: z) = false.
Proof.
  change (lit "<title>") with [60; 116; 105; 116; 108; 101; 62].
  assert (F1 : ci 116 60 = false) by reflexivity.
  assert (F2 : ci 105 60 = false) by reflexivity.
  assert (F3 : ci 108 60 = false) by reflexivity.
  assert (F4 : ci 101 60 = false) by reflexivity.
  assert (F5 : ci 62 60 = false) by reflexivity.
  intros Hne.
  destruct p2 as [|c1 [|c2 [|c3 [|c4 [|c5 [|c6 [|c7 p]]]]]]];
    [congruence| | | | | | |];
    cbn [starts_ci app]; rewrite ?F1, ?F2, ?F3, ?F4, ?F5, ?andb_false_r; auto.
Qed.

Lemma ci_eqb_head_lt pat o :
  ci_eqb (60 :: pat) o = true -> exists o', o = 60 :: o'.
Proof.
  destruct o as [|x o]; [discriminate|]. cbn [ci_eqb].
  intros H. apply andb_prop in H as [Hx _]. apply ci_lt in Hx. subst. eauto.
Qed.

Lemma title_match o content cl post :
  ci_eqb (lit "<title>") o = true ->
  content <> [] -> forallb (neqc 60) content = true ->
  ci_eqb (lit "</title>") cl = true ->
  exists caps,
    match_here title_re (o ++ content ++ cl ++ post) = Some (caps, post)
    /\ group 7 caps = content.
Proof.
  intros Ho Hne Hc Hcl.
  exists (map (fun x => [x]) o ++ content :: map (fun x => [x]) cl ++ []).
  split.
  - unfold title_re. rewrite !lits_ci_ones.
    rewrite (ones_ci_match _ _ _ _ Ho).
    destruct content as [|c content]; [congruence|].
    cbn [forallb] in Hc. apply andb_prop in Hc as [Hc0 Hc].
    cbn [app match_here]. rewrite Hc0.
    rewrite greedy_excl.
    + destruct (ci_eqb_head_lt _ _ Hcl) as (cl' & Ecl).
      rewrite span_app; auto;
        [|rewrite Ecl; intros c1 r' E; inversion E; reflexivity].
      cbn [fst snd].
      rewrite <- (app_nil_r (ones_ci _)), (ones_ci_match _ _ _ _ Hcl).
      reflexivity.
    + intros c1 z H1. rewrite <- (app_nil_r (ones_ci _)).
      apply ones_ci_fail. cbn [starts_ci lit map list_ascii_of_string].
      destruct (ci (ch "<") c1) eqn:E; [|reflexivity].
      apply ci_lt in E. subst c1. discriminate.
  - pose proof (ci_eqb_length _ _ Ho) as L.
    unfold group. rewrite app_nth2; rewrite length_map, L; [|cbn; lia].
    reflexivity.
Qed.

(** ** The first title element *)

Lemma title_element_at_match s caps rest :
  match_here title_re s = Some (caps, rest) ->
  title_element_at s = Some (group 7 caps).
Proof.
  intros M.
  destruct (title_inv _ _ _ M)
    as (o & content & c & -> & _ & -> & Ho & Hne & Hc & Hcl).
  unfold title_element_at. rewrite (starts_ci_app _ _ _ Ho).
  pose proof (ci_eqb_length _ _ Ho) as L.
  replace 7%nat with (length o) by (rewrite L; reflexivity).
  rewrite skipn_app, skipn_all, Nat.sub_diag. cbn [app skipn].
  destruct (ci_eqb_head_lt _ _ Hcl) as (c' & ->).
  rewrite span_app; auto; [|intros x r' E; inversion E; reflexivity].
  change (60 :: c' ++ rest) with ((60 :: c') ++ rest).
  rewrite (starts_ci_app _ _ _ Hcl).
  destruct content; [congruence|reflexivity].
Qed.

Lemma title_element_at_some s content :
  title_element_at s = Some content ->
  exists o cl post,
    s = o ++ content ++ cl ++ post
    /\ ci_eqb (lit "<title>") o = true
    /\ content <> [] /\ forallb (neqc 60) content = true
    /\ ci_eqb (lit "</title>") cl = true.
Proof.
  unfold title_element_at.
  destruct (starts_ci (lit "<title>") s) eqn:St; [|discriminate].
  destruct (starts_ci_split _ _ St) as (o & z & -> & Ho).
  pose proof (ci_eqb_length _ _ Ho) as L.
  replace 7%nat with (length o) by (rewrite L; reflexivity).
  rewrite skipn_app, skipn_all, Nat.sub_diag. cbn [app skipn].
  destruct (span_spec (neqc 60) z) as (Ez & Hc & _).
  destruct (span (neqc 60) z) as [m r]. cbn [fst snd] in *.
  destruct (truthy m) eqn:T; cbn [andb]; [|discriminate].
  destruct (starts_ci (lit "</title>") r) eqn:Sc; [|discriminate].
  intros H. inversion H; subst m. clear H.
  destruct (starts_ci_split _ _ Sc) as (cl & post & -> & Hcl).
  exists o, cl, post. repeat split; auto.
  - now rewrite Ez.
  - intros ->. discriminate.
Qed.

Lemma title_element_at_none s :
  match_here title_re s = None -> title_element_at s = None.
Proof.
  intros M. destruct (title_element_at s) as [content|] eqn:E; [|reflexivity].
  destruct (title_element_at_some _ _ E)
    as (o & cl & post & -> & Ho & Hne & Hc & Hcl).
  destruct (title_match o content cl post Ho Hne Hc Hcl) as (caps & M' & _).
  congruence.
Qed.

(** The search for the title pattern finds the first title element. *)
Lemma first_title_search s :
  first_title_content s =
  match search title_re s with
  | Some (_, caps, _) => Some (group 7 caps)
  | None => None
  end.
Proof.
  induction s as [|c s IH].
  - reflexivity.
  - cbn [first_title_content]. rewrite search_cons.
    destruct (match_here title_re (c :: s)) as [[caps rest]|] eqn:M.
    + now rewrite (title_element_at_match _ _ _ M).
    + rewrite (title_element_at_none _ M), IH.
      destruct (search title_re s) as [[[? ?] ?]|]; reflexivity.
Qed.

Lemma first_title_some s content :
  first_title_content s = Some content ->
  exists pre o cl post,
    s = pre ++ o ++ content ++ cl ++ post
    /\ ci_eqb (lit "<title>") o = true
    /\ content <> [] /\ forallb (neqc 60) content = true
    /\ ci_eqb (lit "</title>") cl = true
    /\ (forall p1 p2, pre = p1 ++ p2 -> p2 <> [] ->
        title_element_at (p2 ++ o ++ content ++ cl ++ post) = None).
Proof.
  induction s as [|c s IH]; cbn [first_title_content].
  - destruct (title_element_at []) eqn:E; [|discriminate].
    discriminate E.
  - destruct (title_element_at (c :: s)) as [content'|] eqn:E.
    + intros H. inversion H; subst content'.
      destruct (title_element_at_some _ _ E)
        as (o & cl & post & Es & Ho & Hne & Hc & Hcl).
      exists [], o, cl, post. repeat split; auto.
      intros p1 p2 Ep. symmetry in Ep. apply app_eq_nil in Ep as [_ ->].
      congruence.
    + intros H. destruct (IH H)
        as (pre & o & cl & post & -> & Ho & Hne & Hc & Hcl & Hfirst).
      exists (c :: pre), o, cl, post. repeat split; auto.
      intros p1 p2 Ep Hne2. destruct p1 as [|c1 p1]; cbn [app] in Ep.
      * subst p2. exact E.
      * inversion Ep; subst. now apply (Hfirst p1).
Qed.

Lemma extract_title_by_element (unescape : str -> str) (text : str) :
  extract_title unescape text =
  match first_title_content text with
  | Some content =>
      let title := clean_title (strip (unescape content)) in
      if str_eqb title Untitled then h1_fallback text else title
  | None => h1_fallback text
  end.
Proof.
  unfold extract_title. rewrite first_title_search.
  destruct (search title_re text) as [[[? caps] ?]|]; [|reflexivity].
  cbv zeta.
  destruct (clean_title (strip (unescape (group 7 caps)))) eqn:E;
    [now destruct (clean_title_nonempty _ E)|].
  cbn [truthy andb]. destruct (str_eqb _ Untitled); reflexivity.
Qed.


(** X10.  The title element decides when it gives a title: for the first
    "<title>" (case apart, without attributes) that has content which is
    not empty and holds no "<", with "</title>" right behind it, the title
    is that content unescaped, trimmed and cleaned of the site name, unless
    this is "Untitled"; then, and when there is no such element, the h1
    element is asked.  Title tags with attributes or without content in
    front of it do not count. *)
Theorem title_element_is_cleaned (unescape : str -> str) (text : str) :
  extract_title unescape text =
  match first_title_content text with
  | Some content =>
      let title := clean_title (strip (unescape content)) in
      if str_eqb title Untitled then h1_fallback text else title
  | None => h1_fallback text
  end
  /\ (forall content,
        first_title_content text = Some content ->
        exists pre o cl post,
          text = pre ++ o ++ content ++ cl ++ post
          /\ ci_eqb (lit "<title>") o = true
          /\ content <> [] /\ forallb (neqc 60) content = true
          /\ ci_eqb (lit "</title>") cl = true
          /\ (forall p1 p2, pre = p1 ++ p2 -> p2 <> [] ->
              title_element_at (p2 ++ o ++ content ++ cl ++ post) = None)).
Proof.
  split; [apply extract_title_by_element|apply first_title_some].
Qed.

Lemma title_element_is_cleaned_witness :
  extract_title (fun s => s)
    (lit "<title></title><TITLE> Real | Site </TITLE><h1>H</h1>")
  = lit "Real"
  /\ exists pre o cl post,
      lit "<title></title><TITLE> Real | Site </TITLE><h1>H</h1>"
      = pre ++ o ++ lit " Real | Site " ++ cl ++ post.
Proof.
  destruct (title_element_is_cleaned (fun s => s)
              (lit "<title></title><TITLE> Real | Site </TITLE><h1>H</h1>"))
    as [E H].
  split; [rewrite E; reflexivity|].
  destruct (H (lit " Real | Site ") eq_refl)
    as (pre & o & cl & post & Et & _).
  exists pre, o, cl, post. exact Et.
Defined.

(** ** The first h1 element *)






(** ** Tags taken out of a text *)




(** ** Title resolution, element by element *)








(** ** scripts/fetch_pages.py: the URLs of a file *)

Lemma file_loop_closed limit lines : forall urls,
  file_loop limit lines urls =
  urls ++ firstn (Z.to_nat (Z.max 1 (limit - Z.of_nat (length urls))))
                 (filter is_http (map strip lines)).
Proof.
  induction lines as [|line lines IH]; intros urls; cbn [file_loop map filter].
  - now rewrite firstn_nil, app_nil_r.
  - destruct (is_http (strip line)) eqn:E; [|apply IH].
    rewrite length_app. cbn [length].
    destruct (Z.leb_spec limit (Z.of_nat (length urls + 1))) as [L|L].
    + replace (Z.to_nat (Z.max 1 (limit - Z.of_nat (length urls)))) with 1%nat
        by lia.
      cbn [firstn]. reflexivity.
    + rewrite IH, length_app. cbn [length].
      replace (Z.to_nat (Z.max 1 (limit - Z.of_nat (length urls))))
        with (S (Z.to_nat (Z.max 1 (limit - Z.of_nat (length urls + 1)))))
        by lia.
      cbn [firstn]. rewrite <- app_assoc. reflexivity.
Qed.

Lemma in_firstn {A} n (l : list A) x : In x (firstn n l) -> In x l.
Proof.
  intros H. rewrite <- (firstn_skipn n l). apply in_or_app. now left.
Qed.

(** X11.  [fetch_file_urls] returns the stripped lines that start with
    "http", in the order of the file, cut off after [limit] of them, but
    never before the first: a limit of 0 or less gives one URL all the
    same.  A path that does not exist gives no URL. *)
Theorem fetch_file_urls_closed (lines : list str) (limit : Z) :
  fetch_file_urls (Some lines) limit =
  firstn (Z.to_nat (Z.max 1 limit)) (filter is_http (map strip lines))
  /\ fetch_file_urls None limit = [].
Proof.
  split; [|reflexivity]. unfold fetch_file_urls.
  rewrite file_loop_closed. cbn [app length].
  now rewrite Z.sub_0_r.
Qed.

(** X12.  Every URL [fetch_file_urls] returns starts with "http" and has no
    whitespace around it, and there are at most [limit] of them when
    [limit] is 1 or more. *)
Theorem fetch_file_urls_bounded (file : option (list str)) (limit : Z) :
  Forall (fun url => startswith url (lit "http") = true
                     /\ trimmed url = true)
         (fetch_file_urls file limit)
  /\ ((1 <= limit)%Z ->
      (Z.of_nat (length (fetch_file_urls file limit)) <= limit)%Z).
Proof.
  destruct file as [lines|]; [|split; [constructor|cbn; lia]].
  unfold fetch_file_urls. rewrite file_loop_closed. cbn [app length].
  rewrite Z.sub_0_r. split.
  - apply Forall_forall. intros url H. apply in_firstn in H.
    apply filter_In in H as [H1 H2]. apply in_map_iff in H1 as (l & <- & _).
    unfold is_http in H2. apply andb_prop in H2 as [_ H2].
    split; [exact H2|apply trimmed_strip].
  - intros L. pose proof (firstn_le_length (Z.to_nat (Z.max 1 limit))
                            (filter is_http (map strip lines))). lia.
Qed.

Lemma fetch_file_urls_bounded_witness :
  (Z.of_nat (length (fetch_file_urls
                       (Some [lit "http://a"; lit " https://b "; lit "ftp://c";
                              lit "http://d"]) 2)) <= 2)%Z.
Proof.
  apply (fetch_file_urls_bounded
           (Some [lit "http://a"; lit " https://b "; lit "ftp://c";
                  lit "http://d"]) 2).
  lia.
Defined.

(** ** scripts/fetch_pages.py: retries *)

Lemma fetch_attempts_success outcome retries body : forall k a n,
  (forall j, (a <= j < a + k)%nat -> outcome j = None) ->
  outcome (a + k)%nat = Some body ->
  (k < n)%nat -> (Z.of_nat (a + k) <= retries)%Z ->
  fetch_attempts outcome retries (seq a n) =
  (Some body, map (fun j => Z.of_nat j) (seq (S a) k)).
Proof.
  induction k as [|k IH]; intros a n Hfail Hok Hn Hr.
  - destruct n as [|n]; [lia|]. cbn [seq fetch_attempts].
    rewrite Nat.add_0_r in Hok. now rewrite Hok.
  - destruct n as [|n]; [lia|]. cbn [seq fetch_attempts].
    rewrite (Hfail a) by lia.
    destruct (Z.ltb_spec (Z.of_nat a) retries) as [L|L]; [|lia].
    rewrite (IH (S a) n).
    + cbn [seq map]. do 2 f_equal. lia.
    + intros j Hj. apply Hfail. lia.
    + rewrite <- Hok. f_equal. lia.
    + lia.
    + rewrite <- Hr. f_equal. lia.
Qed.

Lemma fetch_attempts_failure outcome retries : forall n a,
  (forall j, (a <= j < a + n)%nat -> outcome j = None) ->
  (Z.of_nat (a + n) = retries + 1)%Z \/ n = 0%nat ->
  fetch_attempts outcome retries (seq a n) =
  (None, map (fun j => Z.of_nat j) (seq (S a) (pred n))).
Proof.
  induction n as [|n IH]; intros a Hfail Hr; [reflexivity|].
  cbn [seq fetch_attempts]. rewrite (Hfail a) by lia.
  destruct Hr as [Hr|Hr]; [|discriminate].
  destruct (Z.ltb_spec (Z.of_nat a) retries) as [L|L].
  - rewrite (IH (S a)).
    + destruct n as [|n]; [lia|]. cbn [pred seq map]. do 2 f_equal. lia.
    + intros j Hj. apply Hfail. lia.
    + left. lia.
  - destruct n as [|n]; [reflexivity|lia].
Qed.

(** X13.  [fetch_url] returns the body of the first attempt that succeeds
    among the attempts 0 to [retries], and has slept 1, 2, ... seconds
    after the attempts that failed before it. *)
Theorem fetch_url_first_success (outcome : nat -> option str) (retries : Z)
    (k : nat) (body : str) :
  (forall j, (j < k)%nat -> outcome j = None) ->
  outcome k = Some body ->
  (Z.of_nat k <= retries)%Z ->
  fetch_url outcome retries =
  (Some body, map (fun j => Z.of_nat j) (seq 1 k)).
Proof.
  intros Hfail Hok Hr. unfold fetch_url.
  apply (fetch_attempts_success outcome retries body k 0); auto.
  - intros j Hj. apply Hfail. lia.
  - lia.
Qed.

Lemma fetch_url_first_success_witness :
  fetch_url (fun k => if (k <? 2)%nat then None else Some (lit "ok")) 2
  = (Some (lit "ok"), [1; 2]%Z).
Proof.
  apply (fetch_url_first_success _ 2%Z 2%nat (lit "ok")).
  - intros j Hj. destruct (Nat.ltb_spec j 2); [reflexivity|lia].
  - reflexivity.
  - lia.
Defined.

(** X14.  When every attempt from 0 to [retries] fails, [fetch_url] gives
    up with [None] after having slept 1, 2, ..., [retries] seconds: it
    does not sleep after the last attempt, and with [retries] below 0 it
    makes no attempt at all. *)
Theorem fetch_url_gives_up (outcome : nat -> option str) (retries : Z) :
  (forall j, (Z.of_nat j <= retries)%Z -> outcome j = None) ->
  fetch_url outcome retries =
  (None, map (fun j => Z.of_nat j) (seq 1 (Z.to_nat retries))).
Proof.
  intros Hfail. unfold fetch_url.
  rewrite (fetch_attempts_failure outcome retries).
  - do 3 f_equal. lia.
  - intros j Hj. apply Hfail. lia.
  - destruct (Z.le_gt_cases 0 (retries + 1)); [left|right]; lia.
Qed.

Lemma fetch_url_gives_up_witness :
  fetch_url (fun _ => None) 2 = (None, [1; 2]%Z)
  /\ fetch_url (fun _ => None) (-1) = (None, []).
Proof.
  split.
  - apply (fetch_url_gives_up (fun _ => None) 2). reflexivity.
  - apply (fetch_url_gives_up (fun _ => None) (-1)). reflexivity.
Defined.

(** ** scripts/fetch_pages.py: the headlines of Techmeme *)

Example href_scan_example :
  fetch_techmeme_urls
    (Some (lit "<a href=" ++ [34] ++ lit "https://a.org/1" ++ [34]
           ++ lit "> <a href=" ++ [34] ++ lit "http://techmeme.com/x" ++ [34]
           ++ lit "> <a href=" ++ [34] ++ lit "https://twitter.com/y" ++ [34]
           ++ lit "> <a href=" ++ [34] ++ lit "https://a.org/1" ++ [34]
           ++ lit "> <a href=" ++ [34] ++ lit "http://b.org/2" ++ [34]
           ++ lit ">")) 10
  = [lit "https://a.org/1"; lit "http://b.org/2"].
Proof. vm_compute. reflexivity. Qed.

Lemma str_eqb_eq a b : str_eqb a b = true <-> a = b.
Proof.
  unfold str_eqb. destruct (list_eq_dec N.eq_dec a b); split; congruence.
Qed.

Lemma mem_In x seen : mem x seen = true <-> In x seen.
Proof.
  unfold mem. rewrite existsb_exists. split.
  - intros (y & Hy & E). apply str_eqb_eq in E. now subst.
  - intros H. exists x. split; [assumption|]. now apply str_eqb_eq.
Qed.

Lemma dedup_In seen l x :
  In x (dedup seen l) -> In x l /\ ~ In x seen.
Proof.
  revert seen. induction l as [|y l IH]; intros seen; cbn [dedup]; [tauto|].
  destruct (mem y seen) eqn:E.
  - intros H. destruct (IH _ H). split; [now right|assumption].
  - intros [<-|H].
    + split; [now left|]. intros Hin. apply mem_In in Hin. congruence.
    + destruct (IH _ H) as [H1 H2]. split; [now right|].
      intros Hin. apply H2. now right.
Qed.

Lemma dedup_NoDup l : forall seen, NoDup (dedup seen l).
Proof.
  induction l as [|y l IH]; intros seen; cbn [dedup]; [constructor|].
  destruct (mem y seen); [apply IH|].
  constructor; [|apply IH].
  intros H. apply dedup_In in H as [_ H]. apply H. now left.
Qed.

Lemma NoDup_firstn {A} n : forall l : list A, NoDup l -> NoDup (firstn n l).
Proof.
  induction n as [|n IH]; intros l H; [constructor|].
  destruct l as [|x l]; [constructor|]. cbn [firstn].
  inversion H; subst. constructor; [|auto].
  intros Hin. apply in_firstn in Hin. contradiction.
Qed.

Lemma techmeme_loop_closed limit found : forall urls seen,
  techmeme_loop limit found urls seen =
  urls ++ firstn (Z.to_nat (Z.max 1 (limit - Z.of_nat (length urls))))
                 (dedup seen (filter (fun u => negb (skipped u)) found)).
Proof.
  induction found as [|url found IH]; intros urls seen;
    cbn [techmeme_loop filter].
  - cbn [dedup]. now rewrite firstn_nil, app_nil_r.
  - destruct (skipped url); cbn [negb]; [apply IH|]. cbn [dedup].
    destruct (mem url seen); cbn [negb]; [apply IH|].
    rewrite length_app. cbn [length].
    destruct (Z.leb_spec limit (Z.of_nat (length urls + 1))) as [L|L].
    + replace (Z.to_nat (Z.max 1 (limit - Z.of_nat (length urls)))) with 1%nat
        by lia.
      cbn [firstn]. reflexivity.
    + rewrite IH, length_app. cbn [length].
      replace (Z.to_nat (Z.max 1 (limit - Z.of_nat (length urls))))
        with (S (Z.to_nat (Z.max 1 (limit - Z.of_nat (length urls + 1)))))
        by lia.
      cbn [firstn]. rewrite <- app_assoc. reflexivity.
Qed.

(** X15.  [fetch_techmeme_urls] returns no URL twice and no URL that holds
    one of the texts it skips, and at most [limit] URLs when [limit] is 1
    or more: they are the first occurrences of the URLs found that are not
    skipped, in the order of the page, cut off after [limit] of them but
    never before the first. *)
Theorem fetch_techmeme_urls_distinct (body : option str) (limit : Z) :
  let urls := fetch_techmeme_urls body limit in
  NoDup urls
  /\ Forall (fun u => skipped u = false) urls
  /\ ((1 <= limit)%Z -> (Z.of_nat (length urls) <= limit)%Z)
  /\ (forall b, body = Some b ->
        urls = firstn (Z.to_nat (Z.max 1 limit))
                 (dedup [] (filter (fun u => negb (skipped u))
                                   (href_scan (length b) b)))).
Proof.
  cbv zeta. unfold fetch_techmeme_urls.
  destruct body as [b|];
    [|repeat split; [constructor|constructor|cbn; lia|discriminate]].
  destruct (truthy b) eqn:T.
  - rewrite techmeme_loop_closed. cbn [app length]. rewrite Z.sub_0_r.
    split; [apply NoDup_firstn, dedup_NoDup|]. split; [|split].
    + apply Forall_forall. intros u H. apply in_firstn in H.
      apply dedup_In in H as [H _]. apply filter_In in H as [_ H].
      now apply negb_true_iff.
    + intros L.
      pose proof (firstn_le_length (Z.to_nat (Z.max 1 limit))
                    (dedup [] (filter (fun u => negb (skipped u))
                                      (href_scan (length b) b)))). lia.
    + intros b' E. inversion E; subst. reflexivity.
  - destruct b; [|discriminate].
    repeat split; [constructor|constructor|cbn; lia|].
    intros b' E. inversion E; subst. cbn. now rewrite firstn_nil.
Qed.

Lemma fetch_techmeme_urls_distinct_witness :
  fetch_techmeme_urls
    (Some (lit "href=" ++ [34] ++ lit "http://a.org/" ++ [34])) 5
  = [lit "http://a.org/"].
Proof.
  destruct (fetch_techmeme_urls_distinct
              (Some (lit "href=" ++ [34] ++ lit "http://a.org/" ++ [34])) 5)
    as (_ & _ & _ & H).
  rewrite (H _ eq_refl). vm_compute. reflexivity.
Defined.

Lemma lits_sound a : forall caps,
  Forall2 item_ok (lits a) caps -> concat caps = lit a.
Proof.
  unfold lits. induction (lit a) as [|c pat IH]; intros caps F;
    inversion F as [|? m ? l H F']; subst; [reflexivity|].
  destruct H as (x & -> & Hx). apply N.eqb_eq in Hx. subst x.
  cbn [concat app]. now rewrite (IH _ F').
Qed.

Lemma lits_length a caps :
  Forall2 item_ok (lits a) caps -> length caps = length (lit a).
Proof.
  intros F. apply Forall2_length in F. rewrite <- F. unfold lits.
  now rewrite length_map.
Qed.

Lemma startswith_app s x p : startswith s p = true -> startswith (s ++ x) p = true.
Proof.
  revert s. induction p as [|c p IH]; intros s.
  - intros _. destruct (s ++ x); reflexivity.
  - destruct s as [|d s]; cbn [startswith app]; [discriminate|].
    intros H. apply andb_prop in H as [-> H]. now rewrite IH.
Qed.

Lemma href_match_eq s :
  href_match s =
  match match_here href_re s with
  | Some (caps1, r1) =>
      if startswith r1 (lit "techmeme.com") then None
      else
        match match_here href_tail_re r1 with
        | Some (caps2, r2) =>
            Some (matched (skipn 6 caps1) ++ group 0 caps2, r2)
        | None => None
        end
  | None => None
  end.
Proof. reflexivity. Qed.

Lemma href_match_sound s url rest :
  href_match s = Some (url, rest) ->
  external_url url /\ s = lit "href=" ++ [34] ++ url ++ [34] ++ rest.
Proof.
  rewrite href_match_eq.
  destruct (match_here href_re s) as [[caps1 r1]|] eqn:M1; [|discriminate].
  destruct (startswith r1 (lit "techmeme.com")) eqn:T; [discriminate|].
  destruct (match_here href_tail_re r1) as [[caps2 r2]|] eqn:M2; [|discriminate].
  intros H. injection H as <- <-.
  destruct (match_here_sound _ _ _ _ M1) as [E1 F1].
  destruct (match_here_sound _ _ _ _ M2) as [E2 F2].
  unfold href_re in F1.
  apply Forall2_app_inv_l in F1. destruct F1 as (a1 & b1 & Fa & F1 & ->).
  apply Forall2_app_inv_l in F1. destruct F1 as (a2 & b2 & Fq & F1 & ->).
  apply Forall2_app_inv_l in F1. destruct F1 as (a3 & b3 & Fh & F1 & ->).
  apply Forall2_app_inv_l in F1. destruct F1 as (a4 & a5 & Fs & Fc & ->).
  inversion Fq as [|? q ? l0 Hq Fq']; subst. inversion Fq'; subst.
  destruct Hq as (x & -> & Hx). apply N.eqb_eq in Hx. subst x.
  inversion Fs as [|? sx ? l1 Hs Fs']; subst. inversion Fs'; subst.
  unfold href_tail_re in F2.
  inversion F2 as [|? m ? l2 Hm F2']; subst.
  inversion F2' as [|? q2 ? l3 Hq2 F2'']; subst. inversion F2''; subst.
  destruct Hm as [Hne Hm]. destruct Hq2 as (x & -> & Hx).
  apply N.eqb_eq in Hx. subst x.
  pose proof (lits_length _ _ Fa) as La.
  assert (Sk : skipn 6 (a1 ++ [[34]] ++ a3 ++ [sx] ++ a5) = a3 ++ [sx] ++ a5).
  { rewrite skipn_app, La. cbn [lit map list_ascii_of_string length].
    rewrite skipn_all2 by (rewrite La; cbn; lia). reflexivity. }
  match goal with
  | |- context [matched ?t ++ group 0 _] =>
      replace t with (a3 ++ [sx] ++ a5) by (symmetry; exact Sk)
  end.
  unfold matched, group. cbn [nth].
  rewrite !concat_app, (lits_sound _ _ Fh), (lits_sound _ _ Fc).
  cbn [concat]. rewrite app_nil_r.
  assert (Es : lit "http" ++ sx ++ lit "://" = lit "http://"
               \/ lit "http" ++ sx ++ lit "://" = lit "https://").
  { destruct Hs as [->|(x & -> & Hx)]; [left; reflexivity|].
    apply N.eqb_eq in Hx. subst x. right; reflexivity. }
  split.
  - exists (lit "http" ++ sx ++ lit "://"), m. split; [tauto|].
    split; [now rewrite <- !app_assoc|]. split; [assumption|]. split.
    + destruct (startswith m (lit "techmeme.com")) eqn:S; [|reflexivity].
      unfold matched in T. cbn [concat] in T. rewrite app_nil_r in T.
      rewrite <- app_assoc in T.
      rewrite (startswith_app m _ _ S) in T. discriminate.
    + intros H. apply in_app_or in H as [H|H].
      * destruct Es as [Es|Es]; rewrite Es in H; cbn in H;
          repeat (destruct H as [H|H]; [discriminate|]); destruct H.
      * rewrite forallb_forall in Hm. apply Hm in H. discriminate.
  - rewrite (lits_sound _ _ Fa). cbn [concat app].
    rewrite ?app_nil_r. repeat (rewrite <- app_assoc; cbn [app]).
    reflexivity.
Qed.

Lemma href_scan_external fuel : forall s,
  Forall external_url (href_scan fuel s).
Proof.
  induction fuel as [|fuel IH]; intros s; cbn [href_scan]; [constructor|].
  destruct s as [|c s]; [constructor|].
  destruct (href_match (c :: s)) as [[url rest]|] eqn:M; [|apply IH].
  constructor; [|apply IH]. now apply href_match_sound in M.
Qed.

(** The rounds of [href_scan] are enough. *)
Lemma href_scan_enough : forall n m s,
  (length s <= n)%nat -> (length s <= m)%nat -> href_scan n s = href_scan m s.
Proof.
  induction n as [|n IH]; intros m s Hn Hm.
  - destruct s; [|cbn in Hn; lia]. destruct m; reflexivity.
  - destruct m as [|m].
    + destruct s; [reflexivity|cbn in Hm; lia].
    + cbn [href_scan]. destruct s as [|c s]; [reflexivity|].
      destruct (href_match (c :: s)) as [[url rest]|] eqn:M.
      * apply href_match_sound in M as [_ E].
        apply (f_equal (@length N)) in E. rewrite !length_app in E.
        cbn [length] in *. f_equal. apply IH; lia.
      * cbn [length] in *. apply IH; lia.
Qed.

(** X16.  Every URL [fetch_techmeme_urls] returns starts with "http://" or
    "https://", goes on with text that does not start with "techmeme.com",
    and holds no double quote: links to the site itself are left out. *)
Theorem fetch_techmeme_urls_external (body : option str) (limit : Z) :
  Forall external_url (fetch_techmeme_urls body limit).
Proof.
  unfold fetch_techmeme_urls. destruct body as [b|]; [|constructor].
  destruct (truthy b); [|constructor].
  rewrite techmeme_loop_closed. cbn [app].
  apply Forall_forall. intros u H. apply in_firstn in H.
  apply dedup_In in H as [H _]. apply filter_In in H as [H _].
  pose proof (href_scan_external (length b) b) as F.
  rewrite Forall_forall in F. auto.
Qed.

(** ** [shift_headings] on a text put together from two *)

Lemma re_sub_app head repl a b : rejects [62] head -> gt_closed a ->
  re_sub (tagged head) repl (a ++ b) =
  re_sub (tagged head) repl a ++ re_sub (tagged head) repl b.
Proof.
  intros R. pose proof (tagged_consumes head) as C. unfold re_sub.
  apply (finditer_ind (tagged head)
           (fun a l => gt_closed a ->
                       concat (map (seg_sub repl) (finditer (tagged head) (a ++ b))) =
                       concat (map (seg_sub repl) l)
                       ++ concat (map (seg_sub repl) (finditer (tagged head) b))));
    auto.
  - intros s S G. cbn [map concat seg_sub]. rewrite app_nil_r.
    rewrite (finditer_unfold _ (s ++ b)), (finditer_unfold _ b) by assumption.
    rewrite search_skip.
    + destruct (search (tagged head) b) as [[[? ?] ?]|];
        cbn [map concat seg_sub]; rewrite <- ?app_assoc; reflexivity.
    + intros p1 p2 E Hne. rewrite (tagged_app head p2 b R (G p1 p2 E Hne)).
      now rewrite (search_none_inv _ _ _ _ S E).
  - intros s pre caps rest S IH G.
    destruct (search_sound _ _ _ _ _ S) as (E & M & Hfirst).
    destruct (tagged_last _ _ _ _ M) as [m Em].
    assert (In1 : forall x y, In 62 (x ++ matched caps ++ y)).
    { intros x y. rewrite Em, !in_app_iff. right; left; right; left.
      reflexivity. }
    assert (S' : search (tagged head) (s ++ b) = Some (pre, caps, rest ++ b)).
    { rewrite E, <- !app_assoc. apply search_complete.
      - rewrite app_assoc, tagged_app, M; auto. apply (In1 []).
      - intros p1 p2 Hp Hne. specialize (Hfirst p1 p2 Hp Hne).
        replace (p2 ++ matched caps ++ rest ++ b)
          with ((p2 ++ matched caps ++ rest) ++ b)
          by (now rewrite <- !app_assoc).
        rewrite tagged_app, Hfirst; auto. }
    rewrite (finditer_unfold _ (s ++ b)) by assumption. rewrite S'.
    cbn [map concat seg_sub]. rewrite IH.
    + now rewrite <- !app_assoc.
    + apply (gt_closed_suffix s (pre ++ matched caps) rest); auto.
      now rewrite <- app_assoc.
Qed.

(** X17.  Shifting works piece by piece: when a text is cut behind a ">",
    the shifted text is the shifted first piece followed by the shifted
    second piece. *)
Theorem shift_headings_app (a b : str) :
  shift_headings ((a ++ [62]) ++ b) =
  shift_headings (a ++ [62]) ++ shift_headings b.
Proof.
  unfold shift_headings. rewrite heading_re_tagged.
  change (One (eqc 60) :: tagged heading_tail)
    with (tagged (One (eqc 60) :: heading_tail)).
  apply re_sub_app; [exact heading_head_rejects|apply gt_closed_snoc].
Qed.

(** ** The default title *)

Lemma h1_search_none s :
  occurs_ci (lit "<h1") s = false -> search h1_re s = None.
Proof.
  intros H. apply search_none. intros p1 p2 ->.
  unfold h1_re. rewrite !lits_ci_ones. apply ones_ci_fail.
  exact (occurs_ci_suffix _ _ _ H).
Qed.

(** X18.  A document that holds neither "<h1" (case apart) nor "<title>"
    with text behind it gets the title "Untitled", and [normalize] puts
    the heading "<h1>Untitled</h1>" into it. *)
Theorem untitled_without_title_and_h1 (unescape : str -> str) (text : str) :
  title_open_with_text text = false ->
  occurs_ci (lit "<h1") text = false ->
  extract_title unescape text = Untitled
  /\ normalize unescape text None =
     insert_title (shift_headings text) (lit "Untitled")
  /\ exists a b,
      normalize unescape text None
      = a ++ lit "<h1>Untitled</h1>" ++ [10] ++ b.
Proof.
  intros Ht Hh.
  assert (E : extract_title unescape text = Untitled).
  { unfold extract_title, h1_fallback.
    now rewrite (title_search_none _ Ht), (h1_search_none _ Hh). }
  split; [exact E|]. unfold normalize, resolve_title. rewrite E.
  split; [reflexivity|]. unfold insert_title.
  destruct (search body_re (shift_headings text)) as [[[pre caps] rest]|].
  - exists ((pre ++ matched caps) ++ [10]), rest.
    rewrite <- !app_assoc. reflexivity.
  - exists [], (shift_headings text). reflexivity.
Qed.

Lemma untitled_without_title_and_h1_witness :
  extract_title (fun s => s) (lit "<body><h2>Part</h2><p>text</p></body>")
  = Untitled.
Proof.
  apply (untitled_without_title_and_h1 (fun s => s)
           (lit "<body><h2>Part</h2><p>text</p></body>")); reflexivity.
Defined.

(** ** scripts/fetch_pages.py: the pages saved *)

Section DownloadFacts.
Variable md5_hex : str -> str.
Variable path_join : str -> str -> str.
Variable fetch : nat -> str -> option str.
Variable pages_dir : str.

Lemma write_keeps fs path body q :
  truthy body = true ->
  exists_nonempty fs q = true ->
  exists_nonempty (write_file fs path body) q = true.
Proof.
  intros Hb Hq. unfold exists_nonempty, write_file.
  destruct (str_eqb q path); assumption.
Qed.

Lemma write_here fs path body :
  truthy body = true ->
  exists_nonempty (write_file fs path body) path = true.
Proof.
  intros Hb. unfold exists_nonempty, write_file.
  now rewrite (proj2 (str_eqb_eq path path) eq_refl).
Qed.

Lemma download_loop_inv urls : forall i fs saved,
  saved_ok path_join pages_dir fs saved ->
  let '(saved', fs') :=
    download_loop md5_hex path_join fetch pages_dir i urls fs saved in
  saved_ok path_join pages_dir fs' saved'
  /\ (forall p, exists_nonempty fs p = true -> fs' p = fs p)
  /\ (exists names,
        saved' = saved ++ names
        /\ (length names <= length urls)%nat
        /\ Forall (fun f => exists url, In url urls
                                        /\ f = page_filename md5_hex url)
                  names).
Proof.
  induction urls as [|url urls IH]; intros i fs saved Hs; cbn [download_loop].
  - split; [assumption|]. split; [reflexivity|].
    exists []. rewrite app_nil_r. repeat split; auto.
  - cbv zeta.
    set (filename := page_filename md5_hex url).
    set (filepath := path_join pages_dir filename).
    assert (Keep : forall fs1 saved1,
               (let '(saved', fs') :=
                  download_loop md5_hex path_join fetch pages_dir (S i) urls
                                fs1 saved1 in
                saved_ok path_join pages_dir fs' saved'
                /\ (forall p, exists_nonempty fs1 p = true -> fs' p = fs1 p)
                /\ (exists names,
                      saved' = saved1 ++ names
                      /\ (length names <= length urls)%nat
                      /\ Forall (fun f => exists url, In url urls
                                          /\ f = page_filename md5_hex url)
                                names)) ->
               forall pre, saved1 = saved ++ pre -> (length pre <= 1)%nat ->
               Forall (fun f => f = filename) pre ->
               (forall p, exists_nonempty fs p = true -> fs1 p = fs p) ->
               (forall p, exists_nonempty fs p = true ->
                          exists_nonempty fs1 p = true) ->
               let '(saved', fs') :=
                 download_loop md5_hex path_join fetch pages_dir (S i) urls
                               fs1 saved1 in
               saved_ok path_join pages_dir fs' saved'
               /\ (forall p, exists_nonempty fs p = true -> fs' p = fs p)
               /\ (exists names,
                     saved' = saved ++ names
                     /\ (length names <= length (url :: urls))%nat
                     /\ Forall (fun f => exists u, In u (url :: urls)
                                         /\ f = page_filename md5_hex u)
                               names)).
    { intros fs1 saved1 H pre Epre Lpre Fpre Hsame Hstill.
      destruct (download_loop md5_hex path_join fetch pages_dir (S i) urls
                              fs1 saved1) as [saved' fs'].
      destruct H as (H1 & H2 & names & En & Ln & Fn).
      split; [assumption|]. split.
      - intros p Hp. rewrite (H2 p (Hstill p Hp)). now apply Hsame.
      - exists (pre ++ names). split; [now rewrite En, Epre, app_assoc|].
        split; [rewrite length_app; cbn [length]; lia|].
        apply Forall_app. split.
        + eapply Forall_impl; [|exact Fpre]. intros f ->.
          exists url. split; [now left|reflexivity].
        + eapply Forall_impl; [|exact Fn]. intros f (u & Hu & ->).
          exists u. split; [now right|reflexivity]. }
    destruct (exists_nonempty fs filepath) eqn:Ex.
    + assert (Hok : saved_ok path_join pages_dir fs (saved ++ [filename])).
      { apply Forall_app. split; [assumption|].
        constructor; [exact Ex|constructor]. }
      apply (Keep fs (saved ++ [filename]) (IH (S i) fs _ Hok) [filename]
                  eq_refl);
        [cbn; lia|repeat constructor|auto|auto].
    + destruct (fetch i url) as [body|].
      * destruct (truthy body && (100 <? length body)%nat) eqn:B.
        -- apply andb_prop in B as [Hb _].
           assert (Hok : saved_ok path_join pages_dir
                                  (write_file fs filepath body)
                                  (saved ++ [filename])).
           { apply Forall_app. split.
             - eapply Forall_impl; [|exact Hs]. intros f Hf.
               now apply write_keeps.
             - constructor; [now apply write_here|constructor]. }
           apply (Keep (write_file fs filepath body) (saved ++ [filename])
                       (IH (S i) _ _ Hok) [filename] eq_refl);
             [cbn; lia|repeat constructor| |].
           ++ intros p Hp. unfold write_file.
              destruct (str_eqb p filepath) eqn:E; [|reflexivity].
              apply str_eqb_eq in E. subst p. congruence.
           ++ intros p Hp. now apply write_keeps.
        -- apply (Keep fs saved (IH (S i) fs saved Hs) []
                       (eq_sym (app_nil_r saved)));
             [cbn; lia|constructor|auto|auto].
      * apply (Keep fs saved (IH (S i) fs saved Hs) []
                    (eq_sym (app_nil_r saved)));
          [cbn; lia|constructor|auto|auto].
Qed.

Lemma download_loop_fetch (fetch' : nat -> str -> option str)
    (fs : str -> option str) urls :
  (forall i url,
      exists_nonempty fs (path_join pages_dir (page_filename md5_hex url))
      = false ->
      fetch' i url = fetch i url) ->
  forall i fs1 saved,
    (forall p, exists_nonempty fs p = true -> exists_nonempty fs1 p = true) ->
    download_loop md5_hex path_join fetch' pages_dir i urls fs1 saved
    = download_loop md5_hex path_join fetch pages_dir i urls fs1 saved.
Proof.
  intros Hf. induction urls as [|url urls IH]; intros i fs1 saved Hm;
    cbn [download_loop]; [reflexivity|].
  cbv zeta.
  destruct (exists_nonempty fs1
              (path_join pages_dir (page_filename md5_hex url))) eqn:Ex.
  - now apply IH.
  - rewrite Hf.
    + destruct (fetch i url) as [body|]; [|now apply IH].
      destruct (truthy body && (100 <? length body)%nat) eqn:B;
        [|now apply IH].
      apply andb_prop in B as [Hb _]. apply IH.
      intros p Hp. apply write_keeps; auto.
    + destruct (exists_nonempty fs
                  (path_join pages_dir (page_filename md5_hex url))) eqn:Ex0;
        [|reflexivity].
      rewrite (Hm _ Ex0) in Ex. discriminate.
Qed.

(** X19.  After [download_pages] every name it returns is the name of a
    file in the pages directory that is not empty, and a file that was
    there and not empty before is as it was.  What fetching the page of
    such a file would give plays no part: two runs give the same names and
    the same files when they fetch the same for every URL whose file was
    not there, or was empty, before. *)
Theorem download_pages_saved_exist (urls : list str) (fs : str -> option str) :
  (let '(saved, fs') :=
     download_pages md5_hex path_join fetch pages_dir urls fs in
   Forall (fun f => exists_nonempty fs' (path_join pages_dir f) = true) saved
   /\ (forall p, exists_nonempty fs p = true -> fs' p = fs p))
  /\ (forall fetch' : nat -> str -> option str,
        (forall i url,
            exists_nonempty fs
              (path_join pages_dir (page_filename md5_hex url)) = false ->
            fetch' i url = fetch i url) ->
        download_pages md5_hex path_join fetch' pages_dir urls fs
        = download_pages md5_hex path_join fetch pages_dir urls fs).
Proof.
  split.
  - unfold download_pages.
    pose proof (download_loop_inv urls 0 fs [] (Forall_nil _)) as H.
    destruct (download_loop md5_hex path_join fetch pages_dir 0 urls fs [])
      as [saved fs'].
    destruct H as (H1 & H2 & _). split; assumption.
  - intros fetch' Hf. unfold download_pages.
    apply (download_loop_fetch fetch' fs urls Hf). auto.
Qed.

(** X20.  [download_pages] returns at most one name for each URL, each the
    MD5 name of one of the URLs with ".html" behind it. *)
Theorem download_pages_names (urls : list str) (fs : str -> option str) :
  let saved := fst (download_pages md5_hex path_join fetch pages_dir urls fs) in
  (length saved <= length urls)%nat
  /\ Forall (fun f => exists url, In url urls /\ f = md5_hex url ++ lit ".html")
            saved.
Proof.
  cbv zeta. unfold download_pages.
  pose proof (download_loop_inv urls 0 fs [] (Forall_nil _)) as H.
  destruct (download_loop md5_hex path_join fetch pages_dir 0 urls fs [])
    as [saved fs'].
  destruct H as (_ & _ & names & -> & L & F). cbn [fst app]. split; assumption.
Qed.
End DownloadFacts.
